(** * Verification of the noise networking core

    A shallow embedding of the connection fabric of the [noise] peer-to-peer
    library: the TTL object pool ([pool/pool.go]), the address layer
    ([network/address.go] and the resolver file holding [ToUnifiedHost],
    [ToUnifiedAddress] and [FilterPeers]), the peer client
    ([network/client.go]) and the network node ([network/network.go]).

    Go values are modelled as follows.
    - [time.Time] and [time.Duration] are integers ([Z], nanoseconds).
    - A [sync.Map] keyed by strings is a [gmap string _]; its [Range] visits
      the entries in the order of [map_to_list].
    - A call on a collaborator that lives outside the embedded code (a
      handle's [Close], a handler's [Handle], a transport dial, a sleep) is
      appended to a log kept in the state, so that "was invoked" and "how
      often" are statements about that log.
    - What the outside answers (a dial, a DNS lookup, the bytes read from a
      stream) is an input: a field of the value asked, or a function of
      the environment [Env].
    - A [*PeerClient] is passed and returned as a value. The functions
      below change a client through one pointer only, and none reads it
      back through the peers map afterwards.
    - Code runs sequentially: the goroutines started per stream are run
      one after the other.
    - glog output is not modelled. *)

From Stdlib Require Import ZArith Lia List Ascii.
From stdpp Require Import gmap strings list fin_maps pretty.

Open Scope Z_scope.

(* ===================================================================== *)
(** * pool/pool.go *)
(* ===================================================================== *)

Module Pool.

(** A [Poolable] is an interface value holding a pointer; only its identity
    and the calls of its [Close] method matter to the pool. *)
Definition Poolable := nat.

Record ObjectConfig := { AliveFor : Z }.

Record Object := {
  expiresAt : Z;
  handle : Poolable;
  config : ObjectConfig
}.

(** The pool itself is [objects]; [closeLog] lists, oldest first, the
    [Close] calls made so far on handles. *)
Record Pool := {
  objects : gmap string Object;
  closeLog : list Poolable
}.

Definition NewPool : Pool := {| objects := ∅; closeLog := [] |}.

(** [Add]; [now] is the reading of [time.Now()]. *)
Definition Add (now : Z) (key : string) (value : Poolable)
    (cfg : ObjectConfig) (p : Pool) : Pool :=
  let newExpTime := now + AliveFor cfg in
  let obj := {| expiresAt := newExpTime; handle := value; config := cfg |} in
  {| objects := <[key := obj]> (objects p); closeLog := closeLog p |}.

Definition getObject (key : string) (p : Pool) : option Object :=
  objects p !! key.

(** [Get] returns [(handle, true)] as [Some handle] and [(nil, false)] as
    [None]. *)
Definition Get (key : string) (p : Pool) : option Poolable :=
  match getObject key p with
  | None => None
  | Some obj => Some (handle obj)
  end.

(** [GetAndRenew]: the swap of the [expiresAt] pointer is an update of the
    object stored under [key]. *)
Definition GetAndRenew (now : Z) (key : string) (p : Pool)
    : option Poolable * Pool :=
  match getObject key p with
  | None => (None, p)
  | Some obj =>
      let newExpTime := now + AliveFor (config obj) in
      let obj' := {| expiresAt := newExpTime; handle := handle obj;
                     config := config obj |} in
      (Some (handle obj),
       {| objects := <[key := obj']> (objects p); closeLog := closeLog p |})
  end.

Definition Remove (key : string) (p : Pool) : Pool :=
  {| objects := delete key (objects p); closeLog := closeLog p |}.

(** [obj.expiresAt.Before(curTime)] *)
Definition Before (t u : Z) : bool := t <? u.

(** First loop of [Gc]: the keys of the entries that expired before
    [curTime], in the order [Range] visits them. *)
Definition expiredKeys (curTime : Z) (p : Pool) : list string :=
  foldl (fun expired kv =>
           if Before (expiresAt (snd kv)) curTime
           then expired ++ [fst kv] else expired)
        [] (map_to_list (objects p)).

(** Body of the second loop of [Gc]. *)
Definition sweepKey (p : Pool) (k : string) : Pool :=
  match Get k p with
  | Some obj =>
      {| objects := delete k (objects p); closeLog := closeLog p ++ [obj] |}
  | None => p
  end.

Definition Gc (curTime : Z) (p : Pool) : Pool :=
  foldl sweepKey p (expiredKeys curTime p).

(** The operations of the pool as data, to speak of sequences of calls. *)
Inductive Op :=
| OpAdd (now : Z) (key : string) (value : Poolable) (cfg : ObjectConfig)
| OpGet (key : string)
| OpGetAndRenew (now : Z) (key : string)
| OpRemove (key : string)
| OpGc (now : Z).

Definition step (p : Pool) (o : Op) : Pool :=
  match o with
  | OpAdd now key value cfg => Add now key value cfg p
  | OpGet key => p
  | OpGetAndRenew now key => snd (GetAndRenew now key p)
  | OpRemove key => Remove key p
  | OpGc now => Gc now p
  end.

Definition run (ops : list Op) (p : Pool) : Pool := foldl step p ops.

Definition isGc (o : Op) : bool :=
  match o with OpGc _ => true | _ => false end.

(** Running [Gc] at each of the clock readings [nows], in order. *)
Definition gcAt (nows : list Z) (p : Pool) : Pool :=
  run (OpGc <$> nows) p.

(** Number of [Close] calls on [h] recorded in a log. *)
Definition closeCount (h : Poolable) (log : list Poolable) : nat :=
  length (filter (fun x => x = h) log).

(** [o] stores the handle [h]. *)
Definition addsHandle (h : Poolable) (o : Op) : bool :=
  match o with
  | OpAdd _ _ value _ => bool_decide (value = h)
  | _ => false
  end.

(** [o] stores something under [key]. *)
Definition addsKey (key : string) (o : Op) : bool :=
  match o with
  | OpAdd _ k _ _ => bool_decide (k = key)
  | _ => false
  end.

(** At most one entry of the pool holds [h]. *)
Definition heldOnce (h : Poolable) (p : Pool) : Prop :=
  forall k1 k2 o1 o2,
    objects p !! k1 = Some o1 -> objects p !! k2 = Some o2 ->
    handle o1 = h -> handle o2 = h -> k1 = k2.

(** No entry of the pool holds [h]. *)
Definition notHeld (h : Poolable) (p : Pool) : Prop :=
  forall k o, objects p !! k = Some o -> handle o ≠ h.

End Pool.

(* ===================================================================== *)
(** * Results of Go calls *)
(* ===================================================================== *)

(** A run-time panic, by cause. *)
Inductive PanicKind :=
| NilDereference      (* a field read through a nil pointer *)
| SliceBounds         (* a slice expression out of range *)
| NilTypeAssertion.   (* [x.(string)] on an interface that holds no string *)

(** What a call yields: a value, a non-nil [error] (its message), or a
    panic that unwinds the caller. *)
Inductive outcome (A : Type) :=
| Ok (a : A)
| Err (e : string)
| Panic (k : PanicKind).
Arguments Ok {A} a.
Arguments Err {A} e.
Arguments Panic {A} k.

(** What a library function returning [(value, error)] yields. *)
Inductive result (A : Type) :=
| Done (a : A)
| Fail (e : string).
Arguments Done {A} a.
Arguments Fail {A} e.

(** Go's [int], 64 bits wide: the value an arithmetic result wraps to. *)
Definition wrapInt (z : Z) : Z := (z + 2 ^ 63) mod 2 ^ 64 - 2 ^ 63.

(* ===================================================================== *)
(** * The libraries and the network the code runs against *)
(* ===================================================================== *)

(** [peer.ID]; the package is outside the embedded sources, the two fields
    are the ones the wire format carries. *)
Record ID := {
  IDAddress : string;
  PublicKey : list Z
}.

(** [any.Any], the tagged body of an envelope. *)
Record Any := {
  TypeUrl : string;
  Value : list Z
}.

(** A decoded body: the name [reflect.TypeOf(ptr.Message).String()] gives
    it, and its content. *)
Record ProtoMessage := {
  TypeName : string;
  Content : list Z
}.

(** [net/url.URL], the two fields [ParseAddress] reads. *)
Record URL := {
  Scheme : string;
  URLHost : string
}.

(** An [smux.Session] as the client sees it: what [IsClosed] reports, and
    the error, if any, that [Close], [OpenStream] and the write of an
    envelope on a fresh stream come back with. *)
Record MuxSession := {
  sid : nat;
  IsClosed : bool;
  CloseErr : option string;
  OpenStreamErr : option string;
  SendErr : option string
}.

(** What one attempt to reach a peer comes to: [kcp.DialWithOptions] fails,
    [smux.Client] fails, or a session is up. *)
Inductive DialResult :=
| DialFails (e : string)
| MuxFails (e : string)
| Connected (s : MuxSession).

(** A call recorded in the history of the routing table. *)
Inductive RouteCall :=
| RUpdate (id : ID)
| RRemovePeer (id : ID).

(** Everything the embedded code calls but does not define: functions of
    Go's standard library, of the [lru], [peer], [dht], [backoff] and
    [ptypes] packages, and the transport. *)
Class Env := {
  (** [strings.TrimSpace] *)
  TrimSpace : string -> string;
  (** [url.Parse] *)
  url_Parse : string -> result URL;
  (** [net.SplitHostPort] *)
  SplitHostPort : string -> result (string * string);
  (** [strconv.ParseUint(s, 10, 16)] *)
  ParseUint16 : string -> result Z;
  (** [net.ParseIP(host) != nil] *)
  ParseIP : string -> bool;
  (** [net.LookupHost] *)
  LookupHost : string -> result (list string);
  (** The state of [domainLookupCache], and its [Get(key, loader)]: the
      interface value it returns ([None] when that is nil), the error, and
      the cache afterwards. *)
  Cache : Type;
  lru_Get : Cache -> string -> (unit -> result string) ->
            option string * option string * Cache;
  (** [peer.ID.Equals] *)
  Equals : ID -> ID -> bool;
  (** [RoutingTable.PeerExists], on a table with the given history *)
  PeerExists : list RouteCall -> ID -> bool;
  (** [ptypes.UnmarshalAny] on the body pointer of an envelope *)
  UnmarshalAny : option Any -> result ProtoMessage;
  (** [Backoff.ForAttempt] of the zero-valued [backoff.Backoff] *)
  ForAttempt : nat -> Z;
  (** The [n]-th transport dial since start, to the given address *)
  transport : nat -> string -> DialResult
}.

(* ===================================================================== *)
(** * network/address.go *)
(* ===================================================================== *)

Module Addr.

Record AddressInfo := {
  Protocol : string;
  Host : string;
  Port : Z            (* uint16 *)
}.

Definition NewAddressInfo (protocol host : string) (port : Z) : AddressInfo :=
  {| Protocol := protocol; Host := host; Port := port |}.

Fixpoint hasByte (b : ascii) (s : string) : bool :=
  match s with
  | EmptyString => false
  | String c s' => if decide (c = b) then true else hasByte b s'
  end.

(** [net.JoinHostPort]: a host with a colon is taken for an IPv6 literal
    and bracketed. *)
Definition JoinHostPort (host port : string) : string :=
  if hasByte ":"%char host
  then "[" +:+ host +:+ "]:" +:+ port
  else host +:+ ":" +:+ port.

(** [strconv.Itoa] *)
Definition Itoa (n : Z) : string := pretty n.

(** [AddressInfo.String] *)
Definition String_ (info : AddressInfo) : string :=
  let address := JoinHostPort (Host info) (Itoa (Port info)) in
  if decide (0 < String.length (Protocol info))%nat
  then Protocol info +:+ "://" +:+ address
  else address.

(** [AddressInfo.Raw] *)
Definition Raw (info : AddressInfo) : string :=
  JoinHostPort (Host info) (Itoa (Port info)).

Definition FormatAddress (protocol host : string) (port : Z) : string :=
  String_ (NewAddressInfo protocol host port).

Section Parse.
Context `{Env}.

(** [uint16(port)] truncates to 16 bits. *)
Definition ParseAddress (address : string) : result AddressInfo :=
  match url_Parse address with
  | Fail err => Fail err
  | Done urlInfo =>
      match SplitHostPort (URLHost urlInfo) with
      | Fail err => Fail err
      | Done (host, rawPort) =>
          match ParseUint16 rawPort with
          | Fail err => Fail err
          | Done port =>
              Done {| Protocol := Scheme urlInfo; Host := host;
                      Port := port mod 2 ^ 16 |}
          end
      end
  end.
End Parse.

End Addr.

(* ===================================================================== *)
(** * The resolver: [ToUnifiedHost], [ToUnifiedAddress], [FilterPeers] *)
(* ===================================================================== *)

Module Resolver.
Section WithEnv.
Context `{Env}.

(** The closure [ToUnifiedHost] hands to the cache. On every error path
    it returns the empty string with the error, which [Fail] stands
    for. *)
Definition lookup (host : string) (_ : unit) : result string :=
  if ParseIP host then Done host
  else
    match LookupHost host with
    | Fail err => Fail err
    | Done addresses =>
        match addresses with
        | [] => Fail "no available addresses"
        | host :: _ =>
            if decide (host = "::1") then Done "127.0.0.1" else Done host
        end
    end.

(** [ToUnifiedHost]: [unifiedHost.(string)] is evaluated before the
    caller can look at [err], and panics on a nil interface. *)
Definition ToUnifiedHost (host : string) (c : Cache)
    : outcome string * Cache :=
  let '(unifiedHost, err, c') := lru_Get c host (lookup host) in
  match unifiedHost with
  | None => (Panic NilTypeAssertion, c')
  | Some h =>
      match err with
      | Some e => (Err e, c')
      | None => (Ok h, c')
      end
  end.

Definition ToUnifiedAddress (address : string) (c : Cache)
    : outcome string * Cache :=
  let address := TrimSpace address in
  if decide (String.length address = 0%nat)
  then (Err "cannot dial, address was empty", c)
  else
    match Addr.ParseAddress address with
    | Fail err => (Err err, c)
    | Done info =>
        match ToUnifiedHost (Addr.Host info) c with
        | (Ok host, c') =>
            (Ok (Addr.String_
                   {| Addr.Protocol := Addr.Protocol info;
                      Addr.Host := host;
                      Addr.Port := Addr.Port info |}), c')
        | (Err err, c') => (Err err, c')
        | (Panic k, c') => (Panic k, c')
        end
    end.

(** The loop of [FilterPeers], from the state it has reached: the list
    built so far, the set of visited strings and the cache. *)
Fixpoint filterLoop (peers : list string) (filtered : list string)
    (visited : gset string) (c : Cache) : outcome (list string) * Cache :=
  match peers with
  | [] => (Ok filtered, c)
  | peerAddress :: rest =>
      if decide (String.length peerAddress = 0%nat)
      then filterLoop rest filtered visited c
      else
        match ToUnifiedAddress peerAddress c with
        | (Panic k, c') => (Panic k, c')
        | (Err _, c') => filterLoop rest filtered visited c'
        | (Ok resolved, c') =>
            if decide (resolved ∈ visited)
            then filterLoop rest filtered visited c'
            else filterLoop rest (filtered ++ [resolved])
                            ({[resolved]} ∪ visited) c'
        end
  end.

(** [FilterPeers(address, peers)], [address] being the node's own. (The
    call in [Bootstrap] passes host and port apart, as an older signature
    wanted them; [Bootstrap] is not embedded.) *)
Definition FilterPeers (address : string) (peers : list string)
    (c : Cache) : outcome (list string) * Cache :=
  filterLoop peers [] {[address]} c.

(** The successive results of [ToUnifiedAddress] on the non-empty
    entries of [peers], each call starting from the cache the previous
    one left; errors are passed over and a panic ends the list. *)
Fixpoint resolutions (peers : list string) (c : Cache) : list string :=
  match peers with
  | [] => []
  | peerAddress :: rest =>
      if decide (String.length peerAddress = 0%nat)
      then resolutions rest c
      else
        match ToUnifiedAddress peerAddress c with
        | (Panic _, _) => []
        | (Err _, c') => resolutions rest c'
        | (Ok resolved, c') => resolved :: resolutions rest c'
        end
  end.

(** The cache never hands back a nil interface. *)
Definition cacheYieldsStrings : Prop :=
  forall (c : Cache) key loader, (lru_Get c key loader).1.1 ≠ None.

End WithEnv.
End Resolver.

(* ===================================================================== *)
(** * network/client.go and network/network.go *)
(* ===================================================================== *)

Module Network.

(** [protobuf.Message], the envelope: body, sender and signature, the
    first two behind pointers. *)
Record Message := {
  Message_ : option Any;
  Sender : option ID;
  Signature : list Z
}.

(** An accepted [smux.Stream]: its identity and what [receiveMessage]
    (not part of the embedded sources) reads from it. *)
Record Stream := {
  stid : nat;
  received : result Message
}.

(** A registered [MessageProcessor], by identity. *)
Definition MessageProcessor := nat.

Record PeerClient := {
  Id : option ID;
  Session : option MuxSession;
  Backoff : nat            (* attempt counter of the [backoff.Backoff] *)
}.

Record Network := {
  Routes : list RouteCall; (* the routing table, as the calls made on it *)
  Host : string;
  Port : Z;                (* uint16 *)
  Processors : gmap string MessageProcessor;
  NetID : ID;
  Peers : gmap string PeerClient
}.

(** Calls that leave the embedded code. *)
Inductive Event :=
| EvDial (address : string)              (* kcp.DialWithOptions *)
| EvSleep (d : Z)                        (* time.Sleep *)
| EvSessionClose (s : nat)               (* Session.Close *)
| EvStreamClose (st : nat)               (* Stream.Close *)
| EvHandle (p : MessageProcessor) (st : nat) (m : ProtoMessage)
                                          (* processor.Handle(ctx) *)
| EvSend (s : nat) (m : ProtoMessage)    (* sendMessage on a new stream *)
| EvRedial (address : string).           (* client.Redial *)

Section WithEnv.
Context `{Env}.

(** The node, the DNS cache, the calls made so far, and the number of
    transport dials made so far. *)
Record World := {
  network : Network;
  cache : Cache;
  events : list Event;
  dials : nat
}.

Definition emit (e : Event) (w : World) : World :=
  {| network := network w; cache := cache w;
     events := events w ++ [e]; dials := dials w |}.

Definition setCache (c : Cache) (w : World) : World :=
  {| network := network w; cache := c;
     events := events w; dials := dials w |}.

Definition setRoutes (r : list RouteCall) (w : World) : World :=
  {| network := {| Routes := r; Host := Host (network w);
                   Port := Port (network w);
                   Processors := Processors (network w);
                   NetID := NetID (network w);
                   Peers := Peers (network w) |};
     cache := cache w; events := events w; dials := dials w |}.

Definition setPeers (ps : gmap string PeerClient) (w : World) : World :=
  {| network := {| Routes := Routes (network w); Host := Host (network w);
                   Port := Port (network w);
                   Processors := Processors (network w);
                   NetID := NetID (network w);
                   Peers := ps |};
     cache := cache w; events := events w; dials := dials w |}.

Definition setSession (s : option MuxSession) (c : PeerClient)
    : PeerClient :=
  {| Id := Id c; Session := s; Backoff := Backoff c |}.

Definition setId (id : option ID) (c : PeerClient) : PeerClient :=
  {| Id := id; Session := Session c; Backoff := Backoff c |}.

Definition setBackoff (n : nat) (c : PeerClient) : PeerClient :=
  {| Id := Id c; Session := Session c; Backoff := n |}.

(* ----------------------------------------------------------------- *)
(** ** client.go *)

Definition createPeerClient : PeerClient :=
  {| Id := None; Session := None; Backoff := 0%nat |}.

(** [establishConnection] returns an [error]: [None] is nil. *)
Definition establishConnection (address : string) (c : PeerClient)
    (w : World) : option string * PeerClient * World :=
  match Session c with
  | Some _ => (Some "connection already established", c, w)
  | None =>
      let w' := {| network := network w; cache := cache w;
                   events := events w ++ [EvDial address];
                   dials := S (dials w) |} in
      match transport (dials w) address with
      | DialFails err => (Some err, c, w')
      | MuxFails err => (Some err, setSession None c, w')
      | Connected s => (None, setSession (Some s) c, w')
      end
  end.

Definition close (c : PeerClient) (w : World) : World :=
  match Id c with
  | Some id =>
      if PeerExists (Routes (network w)) id
      then setRoutes (Routes (network w) ++ [RRemovePeer id]) w
      else w
  | None => w
  end.

Definition maxAttempts : nat := 5.

(** The [for] loop of [reestablishConnection] with [remaining] standing
    for [maxAttempts - attempt]: at zero the client is closed and the
    error returned, otherwise one more attempt is made. *)
Fixpoint retry (remaining : nat) (c : PeerClient) (w : World)
    : outcome unit * PeerClient * World :=
  match remaining with
  | O => (Err "unable to reestablish connection", c, close c w)
  | S remaining' =>
      match Id c with
      | None => (Panic NilDereference, c, w)
      | Some id =>
          match establishConnection (IDAddress id) c w with
          | (Some _, c', w') =>
              let d := ForAttempt (Backoff c') in
              retry remaining' (setBackoff (S (Backoff c')) c')
                    (emit (EvSleep d) w')
          | (None, c', w') => (Ok tt, c', w')
          end
      end
  end.

Definition reestablishConnection (c : PeerClient) (w : World)
    : outcome unit * PeerClient * World :=
  let continue w :=
    retry maxAttempts (setSession None (setBackoff 0%nat c)) w in
  match Session c with
  | Some s =>
      if negb (IsClosed s)
      then
        let w' := emit (EvSessionClose (sid s)) w in
        match CloseErr s with
        | Some err => (Err err, c, w')
        | None => continue w'
        end
      else continue w
  | None => continue w
  end.

(** What follows the identity check in [handleMessage]. *)
Definition dispatch (stream : Stream) (msg : Message) (id : ID)
    (w : World) : World :=
  let w := setRoutes (Routes (network w) ++ [RUpdate id]) w in
  match UnmarshalAny (Message_ msg) with
  | Fail _ => w
  | Done ptr =>
      let name := TypeName ptr in
      match Processors (network w) !! name with
      | Some processor => emit (EvHandle processor (stid stream) ptr) w
      | None => w
      end
  end.

(** [handleMessage]; the deferred [stream.Close()] runs last on every
    path, a panic included. *)
Definition handleMessage (stream : Stream) (c : PeerClient) (w : World)
    : outcome unit * PeerClient * World :=
  let finish (r : outcome unit) (c : PeerClient) (w : World) :=
    (r, c, emit (EvStreamClose (stid stream)) w) in
  match received stream with
  | Fail _ => finish (Ok tt) c w
  | Done msg =>
      match Sender msg with
      | None => finish (Panic NilDereference) c w
      | Some id =>
          match Id c with
          | None =>
              let c := setId (Some id) c in
              match establishConnection (IDAddress id) c w with
              | (Some _, c, w) => finish (Ok tt) c w
              | (None, c, w) => finish (Ok tt) c (dispatch stream msg id w)
              end
          | Some cid =>
              if negb (Equals cid id)
              then finish (Ok tt) c w
              else finish (Ok tt) c (dispatch stream msg id w)
          end
      end
  end.

(** An envelope that does not come through, or one from a sender the
    client is not bound to, only has its stream closed. *)
Definition dropped (stream : Stream) (c : PeerClient) (w : World) : Prop :=
  exists w',
    handleMessage stream c w = (Ok tt, c, w') /\
    Routes (network w') = Routes (network w) /\
    events w' = events w ++ [EvStreamClose (stid stream)].


(** [Tell], with [sendMessage] (not part of the embedded sources)
    recorded as one call; the stream it opens and closes again is not
    given an identity. *)
Definition Tell (message : ProtoMessage) (c : PeerClient) (w : World)
    : option string * World :=
  match Session c with
  | None => (Some "client session nil", w)
  | Some s =>
      match OpenStreamErr s with
      | Some err => (Some err, w)
      | None =>
          let w := emit (EvSend (sid s) message) w in
          match SendErr s with
          | Some err => (Some err, w)
          | None => (None, w)
          end
      end
  end.

(** The accepted streams of one client handled one after the other; a
    panic ends the program. *)
Fixpoint ingestAll (streams : list Stream) (c : PeerClient) (w : World)
    : outcome unit * PeerClient * World :=
  match streams with
  | [] => (Ok tt, c, w)
  | stream :: rest =>
      match handleMessage stream c w with
      | (Ok _, c', w') => ingestAll rest c' w'
      | r => r
      end
  end.

(* ----------------------------------------------------------------- *)
(** ** network.go *)

Definition Address (n : Network) : string :=
  Host n +:+ ":" +:+ Addr.Itoa (Port n).

(** Modelled from the spec: [PeerClient.Dial], which is not part of the
    embedded sources: "Establish underlying connection, wrap in mux
    session. Insert into peers." *)
Definition clientDial (address : string) (c : PeerClient) (w : World)
    : option string * PeerClient * World :=
  match establishConnection address c w with
  | (Some err, c', w') => (Some err, c', w')
  | (None, c', w') =>
      (None, c', setPeers (<[address := c']> (Peers (network w'))) w')
  end.

(** [Dial]. The pointers stored in [Peers] come from [createPeerClient]
    and are never nil. *)
Definition Dial (address : string) (w : World)
    : outcome PeerClient * World :=
  let address := TrimSpace address in
  if decide (String.length address = 0%nat)
  then (Err "cannot dial, address was empty", w)
  else
    match Resolver.ToUnifiedAddress address (cache w) with
    | (Err err, c') => (Err err, setCache c' w)
    | (Panic k, c') => (Panic k, setCache c' w)
    | (Ok address, c') =>
        let w := setCache c' w in
        if decide (address = Address (network w))
        then (Err "peer should not dial itself", w)
        else
          match Peers (network w) !! address with
          | Some client => (Ok client, w)
          | None =>
              match clientDial address createPeerClient w with
              | (Some err, _, w') => (Err err, w')
              | (None, client, w') => (Ok client, w')
              end
          end
    end.

(** Modelled from the spec: [PeerClient.Redial], which is not part of the
    embedded sources: "trigger a reconnect attempt". The call is recorded,
    the reconnection it starts is not followed. *)
Definition Redial (address : string) (w : World) : World :=
  emit (EvRedial address) w.

(** [BroadcastByAddresses]. The warning logged when [Tell] fails reads
    [client.Id.Address]. *)
Fixpoint BroadcastByAddresses (message : ProtoMessage)
    (addresses : list string) (w : World) : outcome unit * World :=
  match addresses with
  | [] => (Ok tt, w)
  | address :: rest =>
      match Peers (network w) !! address with
      | Some client =>
          match Tell message client w with
          | (Some _, w') =>
              match Id client with
              | None => (Panic NilDereference, w')
              | Some _ => BroadcastByAddresses message rest (Redial address w')
              end
          | (None, w') => BroadcastByAddresses message rest (Redial address w')
          end
      | None => BroadcastByAddresses message rest w
      end
  end.

(** The [Range] callback of [BroadcastRandomly], over the entries still
    to visit; [K * 3] is computed on [int]. *)
Fixpoint gather (entries : list (string * PeerClient))
    (addresses : list string) (K : Z) : outcome (list string) :=
  match entries with
  | [] => Ok addresses
  | (key, client) :: rest =>
      match Id client with
      | None => Panic NilDereference
      | Some id =>
          let addresses := addresses ++ [IDAddress id] in
          if wrapInt (K * 3) <? Z.of_nat (length addresses)
          then Ok addresses
          else gather rest addresses K
      end
  end.

(** [addresses[i], addresses[j] = addresses[j], addresses[i]] *)
Definition swap (addresses : list string) (i j : nat) : list string :=
  match addresses !! i, addresses !! j with
  | Some a, Some b => <[i := b]> (<[j := a]> addresses)
  | _, _ => addresses
  end.

(** [rand.Shuffle]: for [i] from [n - 1] down to 1, swap [i] with a
    random [j] in [0 .. i]; [rnd i] is the random number drawn at [i]. *)
Fixpoint shuffleFrom (rnd : nat -> nat) (i : nat)
    (addresses : list string) : list string :=
  match i with
  | O => addresses
  | S i' =>
      shuffleFrom rnd i' (swap addresses i (rnd i mod (i + 1))%nat)
  end.

Definition Shuffle (rnd : nat -> nat) (addresses : list string)
    : list string :=
  shuffleFrom rnd (length addresses - 1)%nat addresses.

(** The slice expression [addresses[:K]]. Its upper bound is the
    capacity; where it is used [K] has been capped at the length, so the
    length serves as bound. *)
Definition sliceTo (addresses : list string) (K : Z)
    : outcome (list string) :=
  if decide (0 <= K <= Z.of_nat (length addresses))
  then Ok (take (Z.to_nat K) addresses)
  else Panic SliceBounds.

(** [if len(addresses) < K { K = len(addresses) }] *)
Definition capK (addresses : list string) (K : Z) : Z :=
  if Z.of_nat (length addresses) <? K
  then Z.of_nat (length addresses) else K.

Definition BroadcastRandomly (rnd : nat -> nat) (message : ProtoMessage)
    (K : Z) (w : World) : outcome unit * World :=
  match gather (map_to_list (Peers (network w))) [] K with
  | Err e => (Err e, w)
  | Panic k => (Panic k, w)
  | Ok addresses =>
      let addresses := Shuffle rnd addresses in
      let K := capK addresses K in
      match sliceTo addresses K with
      | Err e => (Err e, w)
      | Panic k => (Panic k, w)
      | Ok chosen => BroadcastByAddresses message chosen w
      end
  end.

(** A dial that does not end in a session. *)
Definition unreachable (r : DialResult) : Prop :=
  match r with Connected _ => False | _ => True end.

(** The calls of [n] failed attempts on [address], the backoff counter
    standing at [b] before the first: a dial, then a sleep. *)
Fixpoint attemptEvents (address : string) (b n : nat) : list Event :=
  match n with
  | O => []
  | S n' =>
      EvDial address :: EvSleep (ForAttempt b)
      :: attemptEvents address (S b) n'
  end.

(** The envelopes sent, as recorded in a log. *)
Definition sends (evs : list Event) : list (nat * ProtoMessage) :=
  omap (fun e => match e with EvSend s m => Some (s, m) | _ => None end)
       evs.

(* ----------------------------------------------------------------- *)
(** ** The remaining functions of client.go and network.go *)

(** [rpc.Request], the two fields [PeerClient.Request] reads. *)
Record RpcRequest := {
  ReqMessage : ProtoMessage;
  Timeout : Z
}.

(** [PeerClient.Request]. [sendMessage] is recorded as one call, as in
    [Tell]; [reply] is what [receiveMessage] reads from the stream. The
    deadline set on the stream shows only in the errors of the write and
    of the read. *)
Definition Request (req : RpcRequest) (reply : result Message)
    (c : PeerClient) (w : World) : result ProtoMessage * World :=
  match Session c with
  | None => (Fail "client session nil", w)
  | Some s =>
      match OpenStreamErr s with
      | Some err => (Fail err, w)
      | None =>
          let w := emit (EvSend (sid s) (ReqMessage req)) w in
          match SendErr s with
          | Some err => (Fail err, w)
          | None =>
              match reply with
              | Fail err => (Fail err, w)
              | Done res =>
                  match UnmarshalAny (Message_ res) with
                  | Fail err => (Fail err, w)
                  | Done ptr => (Done ptr, w)
                  end
              end
          end
      end
  end.

Section Envelopes.

(** [ptypes.MarshalAny] and [Keys.Sign]. *)
Variable MarshalAny : ProtoMessage -> result Any.
Variable Sign : list Z -> result (list Z).

(** [prepareMessage]; [None] is the nil message. *)
Definition prepareMessage (message : option ProtoMessage) (n : Network)
    : result Message :=
  match message with
  | None => Fail "message is null"
  | Some m =>
      match MarshalAny m with
      | Fail err => Fail err
      | Done raw =>
          let id := NetID n in
          match Sign (Value raw) with
          | Fail err => Fail err
          | Done signature =>
              Done {| Message_ := Some raw; Sender := Some id;
                      Signature := signature |}
          end
      end
  end.

End Envelopes.

(** [Broadcast]: [Tell] on every entry of the peers map; an error is
    logged (with [client.Id], no field of it) and the iteration goes on. *)
Definition Broadcast (message : ProtoMessage) (w : World) : World :=
  foldl (fun w (kv : string * PeerClient) => (Tell message kv.2 w).2)
        w (map_to_list (Peers (network w))).

(** [BroadcastByIds] *)
Fixpoint BroadcastByIds (message : ProtoMessage) (ids : list ID)
    (w : World) : outcome unit * World :=
  match ids with
  | [] => (Ok tt, w)
  | id :: rest =>
      match Peers (network w) !! IDAddress id with
      | Some client =>
          match Tell message client w with
          | (Some _, w') =>
              match Id client with
              | None => (Panic NilDereference, w')
              | Some _ =>
                  BroadcastByIds message rest (Redial (IDAddress id) w')
              end
          | (None, w') =>
              BroadcastByIds message rest (Redial (IDAddress id) w')
          end
      | None => BroadcastByIds message rest w
      end
  end.

(** A session on which a stream can be opened. *)
Definition canOpenStream (c : PeerClient) : bool :=
  match Session c with
  | Some s => match OpenStreamErr s with None => true | Some _ => false end
  | None => false
  end.



(** The call [Tell] makes on a client: [sendMessage], when a stream can
    be opened on its session. *)
Definition tellEvents (message : ProtoMessage) (c : PeerClient)
    : list Event :=
  match Session c with
  | Some s => if canOpenStream c then [EvSend (sid s) message] else []
  | None => []
  end.


End WithEnv.
End Network.

(* ===================================================================== *)
(** * A small concrete environment *)
(* ===================================================================== *)

(** One environment to run the embedded code in: addresses of the form
    [scheme://host:port], a DNS that knows [localhost], an unbounded cache
    that hands back the loader's own value, a routing table that holds the
    peers updated and not removed since, and a network on which no address
    with [10.] in it can be reached. *)
Module Fixture.

Definition isSpace (a : ascii) : bool :=
  if decide (a = " "%char) then true else false.

Fixpoint trimLeft (s : string) : string :=
  match s with
  | String a s' => if isSpace a then trimLeft s' else s
  | EmptyString => EmptyString
  end.

Fixpoint trimRight (s : string) : string :=
  match s with
  | String a s' =>
      match trimRight s' with
      | EmptyString => if isSpace a then EmptyString else String a EmptyString
      | r => String a r
      end
  | EmptyString => EmptyString
  end.

Definition trim (s : string) : string := trimRight (trimLeft s).

Definition noLeadingSpace (s : string) : Prop :=
  match s with
  | String a _ => isSpace a = false
  | EmptyString => True
  end.

(** Splits [s] at the first occurrence of [sep], if any. *)
Definition splitAt (sep s : string) : option (string * string) :=
  match String.index 0 sep s with
  | Some i =>
      Some (String.substring 0 i s,
            String.substring (i + String.length sep)
              (String.length s - i - String.length sep) s)
  | None => None
  end.

(** [//host:port] has no scheme, [scheme://host:port] has one. *)
Definition parseURL (s : string) : result URL :=
  if String.prefix "//" s
  then Done {| Scheme := EmptyString;
               URLHost := String.substring 2 (String.length s - 2) s |}
  else
    match splitAt "://" s with
    | Some (EmptyString, _) | None => Fail "missing protocol scheme"
    | Some (scheme, rest) => Done {| Scheme := scheme; URLHost := rest |}
    end.

Definition splitHostPort (s : string) : result (string * string) :=
  match splitAt ":" s with
  | Some hp => Done hp
  | None => Fail "missing port in address"
  end.

Definition digit (a : ascii) : option Z :=
  let n := Z.of_nat (nat_of_ascii a) in
  if decide (48 <= n <= 57) then Some (n - 48) else None.

Fixpoint parseDigits (acc : Z) (s : string) : option Z :=
  match s with
  | EmptyString => Some acc
  | String a s' =>
      match digit a with
      | Some d => parseDigits (acc * 10 + d) s'
      | None => None
      end
  end.

Definition parseUint16 (s : string) : result Z :=
  match s with
  | EmptyString => Fail "invalid syntax"
  | _ =>
      match parseDigits 0 s with
      | Some n =>
          if decide (n < 2 ^ 16) then Done n else Fail "value out of range"
      | None => Fail "invalid syntax"
      end
  end.

Fixpoint numeric (s : string) : bool :=
  match s with
  | EmptyString => true
  | String a s' =>
      match digit a with
      | Some _ => numeric s'
      | None => if decide (a = "."%char) then numeric s' else false
      end
  end.

Definition lookupHost (host : string) : result (list string) :=
  if decide (host = "localhost") then Done ["::1"; "127.0.0.1"]
  else Fail "no such host".

Definition cacheGet (c : gmap string string) (key : string)
    (loader : unit -> result string)
    : option string * option string * gmap string string :=
  match c !! key with
  | Some v => (Some v, None, c)
  | None =>
      match loader tt with
      | Done v => (Some v, None, <[key := v]> c)
      | Fail e => (Some EmptyString, Some e, c)
      end
  end.

#[export] Instance ID_eq_dec : EqDecision ID.
Proof. solve_decision. Defined.

Definition idEquals (a b : ID) : bool := bool_decide (a = b).

Definition peerExists (history : list RouteCall) (id : ID) : bool :=
  foldl (fun present call =>
           match call with
           | RUpdate i => if decide (i = id) then true else present
           | RRemovePeer i => if decide (i = id) then false else present
           end) false history.

Definition unmarshalAny (body : option Any) : result ProtoMessage :=
  match body with
  | None => Fail "message is nil"
  | Some a =>
      if decide (TypeUrl a = "type.googleapis.com/protobuf.HandshakeRequest")
      then Done {| TypeName := "*protobuf.HandshakeRequest";
                   Content := Value a |}
      else Fail "unknown message type"
  end.

(** 100ms doubled per attempt, at most 10s, in nanoseconds. *)
Definition forAttempt (n : nat) : Z :=
  Z.min (100000000 * 2 ^ Z.of_nat n) 10000000000.

Definition dial (n : nat) (address : string) : DialResult :=
  match splitAt "10." address with
  | Some _ => DialFails "i/o timeout"
  | None =>
      Connected {| sid := n; IsClosed := false; CloseErr := None;
                   OpenStreamErr := None; SendErr := None |}
  end.

#[export] Instance env : Env := {|
  TrimSpace := trim;
  url_Parse := parseURL;
  SplitHostPort := splitHostPort;
  ParseUint16 := parseUint16;
  ParseIP := numeric;
  LookupHost := lookupHost;
  Cache := gmap string string;
  lru_Get := cacheGet;
  Equals := idEquals;
  PeerExists := peerExists;
  UnmarshalAny := unmarshalAny;
  ForAttempt := forAttempt;
  transport := dial
|}.

Definition emptyCache : @Cache env := (∅ : gmap string string).

Definition peerX : ID := {| IDAddress := "tcp://10.0.0.1:3001"; PublicKey := [1] |}.

(** The node of scenario C, listening on port 3000. *)
Definition node : Network.Network :=
  {| Network.Routes := []; Network.Host := "127.0.0.1";
     Network.Port := 3000;
     Network.Processors := {[ "*protobuf.HandshakeRequest" := 0%nat ]};
     Network.NetID := {| IDAddress := "127.0.0.1:3000"; PublicKey := [0] |};
     Network.Peers := ∅ |}.

Definition world : Network.World :=
  {| Network.network := node; Network.cache := emptyCache;
     Network.events := []; Network.dials := 0 |}.

Definition handshake : ProtoMessage :=
  {| TypeName := "*protobuf.HandshakeRequest"; Content := [] |}.

Definition handshakeBody : Any :=
  {| TypeUrl := "type.googleapis.com/protobuf.HandshakeRequest";
     Value := [] |}.

Definition garbledBody : Any :=
  {| TypeUrl := "type.googleapis.com/unknown"; Value := [255] |}.

Definition envelope (sender : ID) (body : Any) : Network.Message :=
  {| Network.Message_ := Some body; Network.Sender := Some sender;
     Network.Signature := [] |}.

Definition lostStream : Network.Stream :=
  {| Network.stid := 1; Network.received := Fail "EOF" |}.

Definition streamFromX : Network.Stream :=
  {| Network.stid := 2;
     Network.received := Done (envelope peerX handshakeBody) |}.

Definition peerY : ID :=
  {| IDAddress := "tcp://10.0.0.2:3001"; PublicKey := [2] |}.

Definition streamFromY : Network.Stream :=
  {| Network.stid := 4;
     Network.received := Done (envelope peerY handshakeBody) |}.

Definition peerR : ID :=
  {| IDAddress := "tcp://192.168.0.9:3001"; PublicKey := [9] |}.

Definition streamFromR : Network.Stream :=
  {| Network.stid := 5;
     Network.received := Done (envelope peerR handshakeBody) |}.

Definition garbledFromX : Network.Stream :=
  {| Network.stid := 3;
     Network.received := Done (envelope peerX garbledBody) |}.

Definition openSession (n : nat) : MuxSession :=
  {| sid := n; IsClosed := false; CloseErr := None;
     OpenStreamErr := None; SendErr := None |}.

(** A client bound to [peerX], which can no longer be reached, its
    session still open. *)
Definition clientX : Network.PeerClient :=
  {| Network.Id := Some peerX; Network.Session := Some (openSession 7);
     Network.Backoff := 3 |}.

Definition withPeers (routes : list RouteCall)
    (peers : gmap string Network.PeerClient) : Network.World :=
  {| Network.network :=
       {| Network.Routes := routes; Network.Host := "127.0.0.1";
          Network.Port := 3000;
          Network.Processors := {[ "*protobuf.HandshakeRequest" := 0%nat ]};
          Network.NetID :=
            {| IDAddress := "127.0.0.1:3000"; PublicKey := [0] |};
          Network.Peers := peers |};
     Network.cache := emptyCache;
     Network.events := []; Network.dials := 0 |}.

Definition worldX : Network.World :=
  withPeers [RUpdate peerX] {[ "tcp://10.0.0.1:3001" := clientX ]}.

Definition neighbour (n : nat) (address : string) : Network.PeerClient :=
  {| Network.Id := Some {| IDAddress := address; PublicKey := [Z.of_nat n] |};
     Network.Session := Some (openSession n);
     Network.Backoff := 0 |}.

(** A node with five connected peers. *)
Definition world5 : Network.World :=
  withPeers []
    (<["tcp://192.168.0.1:3001" := neighbour 1 "tcp://192.168.0.1:3001"]>
    (<["tcp://192.168.0.2:3001" := neighbour 2 "tcp://192.168.0.2:3001"]>
    (<["tcp://192.168.0.3:3001" := neighbour 3 "tcp://192.168.0.3:3001"]>
    (<["tcp://192.168.0.4:3001" := neighbour 4 "tcp://192.168.0.4:3001"]>
    (<["tcp://192.168.0.5:3001" := neighbour 5 "tcp://192.168.0.5:3001"]>
       ∅))))).

(** A network on which the first two dials fail and the later ones
    connect; everything else as in [env]. *)
Definition flakyDial (n : nat) (address : string) : DialResult :=
  if (n <? 2)%nat then DialFails "i/o timeout" else Connected (openSession n).

Definition flakyEnv : Env := {|
  TrimSpace := trim;
  url_Parse := parseURL;
  SplitHostPort := splitHostPort;
  ParseUint16 := parseUint16;
  ParseIP := numeric;
  LookupHost := lookupHost;
  Cache := gmap string string;
  lru_Get := cacheGet;
  Equals := idEquals;
  PeerExists := peerExists;
  UnmarshalAny := unmarshalAny;
  ForAttempt := forAttempt;
  transport := flakyDial
|}.

Definition flakyWorld : @Network.World flakyEnv :=
  @Network.Build_World flakyEnv node (∅ : gmap string string) [] 0.

End Fixture.

(* ===================================================================== *)
(** * Properties of the pool *)
(* ===================================================================== *)

Module PoolFacts.
Import Pool.

Lemma expiredKeys_filter curTime p :
  expiredKeys curTime p =
  (filter (fun kv => expiresAt (snd kv) < curTime)
          (map_to_list (objects p))).*1.
Proof.
  unfold expiredKeys.
  enough (G : forall l acc,
    foldl (fun expired (kv : string * Object) =>
             if Before (expiresAt (snd kv)) curTime
             then expired ++ [fst kv] else expired) acc l
    = acc ++ (filter (fun kv : string * Object =>
                        expiresAt (snd kv) < curTime) l).*1).
  { rewrite G. reflexivity. }
  induction l as [|[k o] l IH]; intros acc; simpl.
  - by rewrite app_nil_r.
  - rewrite IH. unfold Before. rewrite filter_cons. simpl.
    destruct (Z.ltb_spec (expiresAt o) curTime); case_decide; try lia.
    + by rewrite fmap_cons, <- app_assoc.
    + done.
Qed.

Lemma expiredKeys_NoDup curTime p : NoDup (expiredKeys curTime p).
Proof.
  rewrite expiredKeys_filter.
  apply (sublist_NoDup _ ((map_to_list (objects p)).*1)).
  - apply NoDup_fst_map_to_list.
  - apply fmap_sublist, sublist_filter.
Qed.

Lemma elem_of_expiredKeys curTime p k :
  k ∈ expiredKeys curTime p <->
  exists o, objects p !! k = Some o /\ expiresAt o < curTime.
Proof.
  rewrite expiredKeys_filter, list_elem_of_fmap. split.
  - intros [[k' o] [-> Hin]]. apply list_elem_of_filter in Hin as [Hlt Hin].
    apply elem_of_map_to_list in Hin. eauto.
  - intros (o & Hk & Hlt). exists (k, o). split; [done|].
    apply list_elem_of_filter. split; [done|]. by apply elem_of_map_to_list.
Qed.

(** The sweep deletes exactly the keys it is given. *)
Lemma sweep_lookup ks p k :
  objects (foldl sweepKey p ks) !! k =
  if decide (k ∈ ks) then None else objects p !! k.
Proof.
  revert p. induction ks as [|k0 ks IH]; intros p; simpl.
  - destruct (decide (k ∈ [])) as [Hin|Hin];
      [by apply elem_of_nil in Hin | done].
  - rewrite IH. unfold sweepKey, Get, getObject.
    destruct (decide (k = k0)) as [->|Hne].
    + rewrite (decide_True (P := k0 ∈ k0 :: ks)) by left.
      case_decide; [done|].
      destruct (objects p !! k0) eqn:E; simpl; [apply lookup_delete_eq|done].
    + destruct (decide (k ∈ ks)) as [Hin|Hin].
      * by rewrite decide_True by (by right).
      * rewrite decide_False by (by intros [?|?]%elem_of_cons).
        destruct (objects p !! k0); simpl; [by apply lookup_delete_ne|done].
Qed.

(** What the sweep closes: the handles found under the keys, in order. *)
Lemma sweep_closeLog ks p :
  NoDup ks ->
  closeLog (foldl sweepKey p ks) =
  closeLog p ++ omap (fun k => Get k p) ks.
Proof.
  revert p. induction ks as [|k0 ks IH]; intros p Hnd; simpl.
  - by rewrite app_nil_r.
  - apply NoDup_cons in Hnd as [Hnotin Hnd]. rewrite IH by done.
    assert (Hsame : forall ks' : list string, k0 ∉ ks' ->
              omap (fun k => Get k (sweepKey p k0)) ks'
              = omap (fun k => Get k p) ks').
    { induction ks' as [|k1 ks' IHks]; intros Hni; [done|].
      apply not_elem_of_cons in Hni as [Hne Hni]. simpl.
      assert (Get k1 (sweepKey p k0) = Get k1 p) as ->.
      { unfold sweepKey. destruct (Get k0 p); [|done].
        unfold Get, getObject. simpl. by rewrite lookup_delete_ne. }
      specialize (IHks Hni). unfold omap in IHks. by rewrite IHks. }
    rewrite Hsame by done. unfold sweepKey at 1.
    destruct (Get k0 p); simpl; [by rewrite <- app_assoc|done].
Qed.

Lemma Gc_lookup now p k :
  objects (Gc now p) !! k =
  match objects p !! k with
  | Some o => if Before (expiresAt o) now then None else Some o
  | None => None
  end.
Proof.
  unfold Gc. rewrite sweep_lookup. unfold Before.
  case_decide as Hin.
  - apply elem_of_expiredKeys in Hin as (o & -> & Hlt).
    destruct (Z.ltb_spec (expiresAt o) now); [done|lia].
  - destruct (objects p !! k) as [o|] eqn:E; [|done].
    destruct (Z.ltb_spec (expiresAt o) now); [|done].
    exfalso. apply Hin, elem_of_expiredKeys. eauto.
Qed.

Lemma Gc_closeLog now p :
  closeLog (Gc now p) =
  closeLog p ++
  (handle <$> (filter (fun kv => expiresAt (snd kv) < now)
                      (map_to_list (objects p))).*2).
Proof.
  unfold Gc. rewrite sweep_closeLog by apply expiredKeys_NoDup.
  f_equal. rewrite expiredKeys_filter.
  assert (Hall : Forall (fun kv => objects p !! fst kv = Some (snd kv))
    (filter (fun kv : string * Object => expiresAt (snd kv) < now)
            (map_to_list (objects p)))).
  { apply Forall_forall. intros [k o] [_ Hin]%list_elem_of_filter.
    by apply elem_of_map_to_list in Hin. }
  induction Hall as [|[k o] l Hk _ IH]; [done|].
  simpl in *. unfold Get at 1, getObject. rewrite Hk. simpl. by f_equal.
Qed.

(** The entries of a map that survive a filter, when exactly one key can
    pass it. *)
Lemma filter_map_to_list_single (m : gmap string Object)
    (P : string * Object -> Prop) `{!forall kv, Decision (P kv)} k o :
  m !! k = Some o -> P (k, o) ->
  (forall k' o', m !! k' = Some o' -> P (k', o') -> k' = k) ->
  length (filter P (map_to_list m)) = 1%nat.
Proof.
  intros Hk HP Huniq.
  rewrite <- (map_to_list_delete m k o Hk).
  rewrite filter_cons, decide_True by done. simpl. f_equal.
  apply length_zero_iff_nil, elem_of_nil_inv. intros [k' o'] Hin.
  apply list_elem_of_filter in Hin as [HP' Hin].
  apply elem_of_map_to_list in Hin.
  apply lookup_delete_Some in Hin as [Hne Hin]. naive_solver.
Qed.

Lemma filter_map_to_list_none (m : gmap string Object)
    (P : string * Object -> Prop) `{!forall kv, Decision (P kv)} :
  (forall k o, m !! k = Some o -> ~ P (k, o)) ->
  filter P (map_to_list m) = [].
Proof.
  intros Hno. apply elem_of_nil_inv. intros [k o] Hin.
  apply list_elem_of_filter in Hin as [HP Hin].
  apply elem_of_map_to_list in Hin. naive_solver.
Qed.

(** [Gc] adds to the log, for a handle [h], one [Close] per expired entry
    holding [h]. *)
Lemma Gc_closeCount now p h :
  closeCount h (closeLog (Gc now p)) =
  (closeCount h (closeLog p) +
   length (filter (fun kv => (expiresAt (snd kv) < now)%Z
                             /\ handle (snd kv) = h)
                  (map_to_list (objects p))))%nat.
Proof.
  unfold closeCount. rewrite Gc_closeLog, filter_app, length_app. f_equal.
  induction (map_to_list (objects p)) as [|[k o] l IH]; [done|].
  rewrite !filter_cons. cbn [snd].
  destruct (decide (expiresAt o < now)) as [Hlt|Hge].
  - rewrite !fmap_cons, filter_cons. cbn [snd].
    destruct (decide (handle o = h)) as [Hh|Hh].
    + rewrite decide_True by done. cbn [length]. by rewrite IH.
    + rewrite decide_False by tauto. done.
  - rewrite decide_False by tauto. done.
Qed.

Lemma Gc_nothing_expired now p :
  (forall k o, objects p !! k = Some o -> ~ expiresAt o < now) ->
  Gc now p = p.
Proof.
  intros Hno. unfold Gc.
  assert (expiredKeys now p = []) as ->; [|done].
  apply elem_of_nil_inv. intros k (o & Hk & Hlt)%elem_of_expiredKeys.
  by apply (Hno k o).
Qed.

Lemma gcAt_snoc nows now p : gcAt (nows ++ [now]) p = Gc now (gcAt nows p).
Proof. unfold gcAt, run. by rewrite fmap_app, foldl_app. Qed.

(** While the entry under [k] is the only one holding [h] and has not
    expired, sweeps keep it and never close [h]. *)
Lemma gcAt_keeps nows p k o :
  objects p !! k = Some o ->
  (forall k' o', k' ≠ k -> objects p !! k' = Some o' ->
                 handle o' ≠ handle o) ->
  Forall (fun now => now <= expiresAt o) nows ->
  let q := gcAt nows p in
  objects q !! k = Some o /\
  (forall k' o', k' ≠ k -> objects q !! k' = Some o' ->
                 handle o' ≠ handle o) /\
  closeCount (handle o) (closeLog q) = closeCount (handle o) (closeLog p).
Proof.
  intros Hk Hothers. induction nows as [|now nows IH] using rev_ind.
  - intros _. by cbn.
  - intros [Hnows Hnow]%Forall_app. apply Forall_inv in Hnow.
    specialize (IH Hnows). cbn zeta in *. destruct IH as (IHk & IHo & IHc).
    rewrite gcAt_snoc. split; [|split].
    + rewrite Gc_lookup, IHk. unfold Before.
      destruct (Z.ltb_spec (expiresAt o) now); [lia|done].
    + intros k' o' Hne. rewrite Gc_lookup.
      destruct (objects (gcAt nows p) !! k') as [o''|] eqn:E; [|done].
      destruct (Before (expiresAt o'') now); [done|].
      intros [= ->]. by eapply IHo.
    + rewrite Gc_closeCount, <- IHc, filter_map_to_list_none; [simpl; lia|].
      intros k' o' Hk' [Hlt Hh]. cbn [snd] in *.
      destruct (decide (k' = k)) as [->|Hne].
      * rewrite IHk in Hk'. injection Hk' as <-. lia.
      * by eapply IHo.
Qed.

(* --------------------------------------------------------------------- *)
(** ** TTL eviction *)

(** The run of [TestSingleThreadedPool], with the clock read at 0 when
    [foo] is added, at 1 for the first sweep and a little after each
    sleep: the four checks of the test pass. *)
Example TestSingleThreadedPool :
  let foo := 7%nat in
  let cfg := {| AliveFor := 100 |} in
  let p1 := Add 0 "foo" foo cfg NewPool in
  let p2 := Gc 1 p1 in
  let p3 := Gc 101 p2 in
  let p4 := Add 102 "foo" foo cfg p3 in
  let p5 := Gc 153 p4 in
  let p6 := snd (GetAndRenew 154 "foo" p5) in
  let p7 := Gc 205 p6 in
  Get "foo" p1 = Some foo /\
  Get "foo" p2 = Some foo /\
  Get "foo" p3 = None /\
  closeLog p3 = [foo] /\
  Get "foo" p7 = Some foo /\
  closeLog p7 = [foo].
Proof. vm_compute. repeat split. Qed.

(** C2, as claimed, fails on the boundary: an entry added at time 0 with
    [AliveFor = 100] expires at 100, and a sweep whose clock reads exactly
    100 keeps it, because [Gc] tests [expiresAt.Before(curTime)]. *)
Lemma ttl_eviction_boundary_counterexample :
  ~ (forall p0 t k h d now, now >= t + d ->
       Get k (Gc now (Add t k h {| AliveFor := d |} p0)) = None).
Proof.
  intros H. specialize (H NewPool 0 "foo"%string 7%nat 100 100).
  vm_compute in H. specialize (H (fun e => match e with eq_refl => I end)).
  discriminate H.
Qed.

(** One [Close] per expired entry: a handle stored under two keys is
    closed twice by the sweep that removes both. *)
Lemma shared_handle_closed_twice :
  let p := Add 0 "a" 7%nat {| AliveFor := 100 |}
             (Add 0 "b" 7%nat {| AliveFor := 100 |} NewPool) in
  closeCount 7%nat (closeLog (Gc 101 p)) = 2%nat.
Proof. vm_compute. reflexivity. Qed.

(** C2 (amended): after [Add t k h {AliveFor = d}] on a pool in which no
    other entry holds [h], [Get k] returns [h]; it still does after any
    sweeps whose clock reads at most [t + d], and these do not close [h];
    a sweep whose clock reads strictly more than [t + d] removes the entry
    and invokes [Close] on [h] exactly once. *)
Theorem ttl_eviction p0 t k h d early late :
  (forall k' o', k' ≠ k -> objects p0 !! k' = Some o' -> handle o' ≠ h) ->
  Forall (fun now => now <= t + d) early ->
  t + d < late ->
  let p := Add t k h {| AliveFor := d |} p0 in
  let p1 := gcAt early p in
  let p2 := Gc late p1 in
  Get k p = Some h /\
  Get k p1 = Some h /\
  closeCount h (closeLog p1) = closeCount h (closeLog p0) /\
  Get k p2 = None /\
  closeCount h (closeLog p2) = S (closeCount h (closeLog p0)).
Proof.
  intros Hothers Hearly Hlate p p1 p2.
  set (o := {| expiresAt := t + d; handle := h;
               config := {| AliveFor := d |} |}).
  assert (Hk : objects p !! k = Some o) by apply lookup_insert_eq.
  assert (Ho : forall k' o', k' ≠ k -> objects p !! k' = Some o' ->
                             handle o' ≠ handle o).
  { intros k' o' Hne. subst p. cbn. rewrite lookup_insert_ne by done.
    by apply Hothers. }
  destruct (gcAt_keeps early p k o Hk Ho Hearly) as (H1k & H1o & H1c).
  fold p1 in H1k, H1o, H1c. cbn [handle o] in H1c, H1o.
  split; [|split; [|split; [|split]]].
  - unfold Get, getObject. by rewrite Hk.
  - unfold Get, getObject. by rewrite H1k.
  - by rewrite H1c.
  - unfold Get, getObject, p2. rewrite Gc_lookup, H1k. unfold Before. cbn.
    destruct (Z.ltb_spec (t + d) late); [done|lia].
  - unfold p2. rewrite Gc_closeCount, H1c.
    rewrite (filter_map_to_list_single _ _ k o);
      [unfold p, Add; cbn [closeLog]; lia | done | by cbn; split; [lia|] | ].
    intros k' o' Hk' [_ Hh]. cbn [snd] in Hh.
    destruct (decide (k' = k)); [done|]. by destruct (H1o k' o').
Qed.

Lemma ttl_eviction_witness :
  let p := Add 0 "foo" 7%nat {| AliveFor := 100 |} NewPool in
  Get "foo" p = Some 7%nat /\
  Get "foo" (gcAt [0; 100] p) = Some 7%nat /\
  closeCount 7%nat (closeLog (gcAt [0; 100] p)) = closeCount 7%nat (closeLog NewPool) /\
  Get "foo" (Gc 101 (gcAt [0; 100] p)) = None /\
  closeCount 7%nat (closeLog (Gc 101 (gcAt [0; 100] p)))
  = S (closeCount 7%nat (closeLog NewPool)).
Proof.
  apply (ttl_eviction NewPool 0 "foo" 7%nat 100 [0; 100] 101).
  - intros k' o' _ Hk'. cbn in Hk'. by rewrite lookup_empty in Hk'.
  - repeat constructor; lia.
  - lia.
Defined.

(* --------------------------------------------------------------------- *)
(** ** Who calls [Close] *)

Lemma step_closeLog p o : isGc o = false -> closeLog (step p o) = closeLog p.
Proof.
  destruct o; cbn; try done.
  unfold GetAndRenew. by destruct (getObject key p).
Qed.

(** C8: [Add] over an existing entry stores the new handle and [Remove]
    deletes the entry, both without any call of [Close]; over any sequence
    of pool operations that contains no [Gc], no [Close] is invoked. *)
Theorem close_only_by_gc :
  (forall now k h1 h2 cfg p,
      Get k p = Some h1 ->
      let p' := Add now k h2 cfg p in
      Get k p' = Some h2 /\ closeLog p' = closeLog p) /\
  (forall k p,
      let p' := Remove k p in
      Get k p' = None /\ closeLog p' = closeLog p) /\
  (forall ops p,
      Forall (fun o => isGc o = false) ops ->
      closeLog (run ops p) = closeLog p).
Proof.
  split; [|split].
  - intros now k h1 h2 cfg p _. cbn. split; [|done].
    unfold Get, getObject. cbn. by rewrite lookup_insert_eq.
  - intros k p. cbn. split; [|done].
    unfold Get, getObject. cbn. by rewrite lookup_delete_eq.
  - intros ops p. unfold run.
    induction ops as [|o ops IH] using rev_ind; intros Hops; [done|].
    apply Forall_app in Hops as [Hops Ho]. apply Forall_inv in Ho.
    rewrite foldl_snoc, step_closeLog by done. by apply IH.
Qed.

Lemma close_only_by_gc_witness :
  let p := Add 0 "foo" 1%nat {| AliveFor := 5 |} NewPool in
  (Get "foo" (Add 3 "foo" 2%nat {| AliveFor := 5 |} p) = Some 2%nat /\
   closeLog (Add 3 "foo" 2%nat {| AliveFor := 5 |} p) = closeLog p) /\
  closeLog (run [OpAdd 3 "foo" 2%nat {| AliveFor := 5 |}; OpGet "foo";
                 OpGetAndRenew 9 "foo"; OpRemove "foo"] p) = closeLog p.
Proof.
  split.
  - apply (proj1 close_only_by_gc 3 "foo"%string 1%nat 2%nat
             {| AliveFor := 5 |}). reflexivity.
  - apply (proj2 (proj2 close_only_by_gc)). repeat constructor.
Defined.

(* --------------------------------------------------------------------- *)
(** ** Idempotence of [Gc] *)

(** C9: at a fixed clock reading, a second [Gc] right after a first one
    leaves the pool as the first one left it, and invokes no [Close]. *)
Theorem Gc_idempotent now p :
  Gc now (Gc now p) = Gc now p /\
  closeLog (Gc now (Gc now p)) = closeLog (Gc now p).
Proof.
  assert (Gc now (Gc now p) = Gc now p) as ->; [|done].
  apply Gc_nothing_expired. intros k o. rewrite Gc_lookup.
  destruct (objects p !! k) as [o'|]; [|done]. unfold Before.
  destruct (Z.ltb_spec (expiresAt o') now); [done|].
  intros [= <-]. lia.
Qed.

End PoolFacts.

(* ===================================================================== *)
(** * Properties of the resolver *)
(* ===================================================================== *)

Module ResolverFacts.
Import Resolver.

Lemma append_nonempty_r (s t : string) :
  t ≠ EmptyString -> s +:+ t ≠ EmptyString.
Proof. by destruct s. Qed.

Lemma JoinHostPort_nonempty host port :
  Addr.JoinHostPort host port ≠ EmptyString.
Proof.
  unfold Addr.JoinHostPort. destruct (Addr.hasByte ":" host).
  - done.
  - by apply append_nonempty_r.
Qed.

Lemma String_nonempty info : Addr.String_ info ≠ EmptyString.
Proof.
  unfold Addr.String_. case_decide.
  - apply append_nonempty_r. done.
  - apply JoinHostPort_nonempty.
Qed.

Section WithEnv.
Context `{Env}.

Lemma ToUnifiedAddress_nonempty address c resolved c' :
  ToUnifiedAddress address c = (Ok resolved, c') ->
  resolved ≠ EmptyString.
Proof.
  unfold ToUnifiedAddress. case_decide; [done|].
  destruct (Addr.ParseAddress _); [|done].
  destruct (ToUnifiedHost _ c) as [[h|e|k] c'']; [|done..].
  intros [= <- <-]. apply String_nonempty.
Qed.

Lemma ToUnifiedAddress_no_panic address c :
  cacheYieldsStrings ->
  forall k c', ToUnifiedAddress address c ≠ (Panic k, c').
Proof.
  intros Hc k c'. unfold ToUnifiedAddress. case_decide; [done|].
  destruct (Addr.ParseAddress _) as [info|]; [|done].
  unfold ToUnifiedHost.
  specialize (Hc c (Addr.Host info) (lookup (Addr.Host info))).
  destruct (lru_Get c _ _) as [[[h|] [e|]] c'']; simpl in *; done.
Qed.

Lemma resolutions_nonempty peers c :
  EmptyString ∉ resolutions peers c.
Proof.
  revert c. induction peers as [|x peers IH]; intros c; simpl.
  - apply not_elem_of_nil.
  - case_decide; [apply IH|].
    destruct (ToUnifiedAddress x c) as [[r|e|k] c'] eqn:E.
    + apply not_elem_of_cons. split; [|apply IH].
      intros Heq. by eapply ToUnifiedAddress_nonempty.
    + apply IH.
    + apply not_elem_of_nil.
Qed.

(** What the loop adds to [filtered]. *)
Lemma filterLoop_spec peers : forall filtered visited c ys c',
  filterLoop peers filtered visited c = (Ok ys, c') ->
  exists added,
    ys = filtered ++ added /\
    NoDup added /\
    (forall y, y ∈ added -> y ∉ visited) /\
    added `sublist_of` resolutions peers c /\
    (forall r, r ∈ resolutions peers c -> r ∈ visited \/ r ∈ added).
Proof.
  induction peers as [|x peers IH]; intros filtered visited c ys c'; simpl.
  - intros [= <- <-]. exists []. rewrite app_nil_r.
    repeat split; [constructor|by intros ? ?%elem_of_nil|done|].
    by intros ? ?%elem_of_nil.
  - case_decide; [apply IH|].
    destruct (ToUnifiedAddress x c) as [[r|e|k] c1] eqn:E; [| |done].
    + case_decide as Hvis.
      * intros (added & -> & Hnd & Hnew & Hsub & Hall)%IH.
        exists added. repeat split; [done..| |].
        -- by apply sublist_cons.
        -- intros r' [->|Hin]%elem_of_cons; [by left|by apply Hall].
      * intros (added & -> & Hnd & Hnew & Hsub & Hall)%IH.
        exists (r :: added). repeat split.
        -- by rewrite <- app_assoc.
        -- apply NoDup_cons. split; [|done].
           intros Hin%Hnew. set_solver.
        -- intros y [->|Hin]%elem_of_cons; [done|].
           apply Hnew in Hin. set_solver.
        -- by apply sublist_skip.
        -- intros r' [->|Hin]%elem_of_cons; [right; by left|].
           destruct (Hall r' Hin) as [Hv|Ha]; [|right; by right].
           apply elem_of_union in Hv as [->%elem_of_singleton|Hv];
             [right; by left|by left].
    + intros (added & -> & Hnd & Hnew & Hsub & Hall)%IH. by exists added.
Qed.

Lemma filterLoop_returns peers : forall filtered visited c,
  cacheYieldsStrings ->
  exists ys c', filterLoop peers filtered visited c = (Ok ys, c').
Proof.
  induction peers as [|x peers IH]; intros filtered visited c Hc; simpl.
  - eauto.
  - case_decide; [by apply IH|].
    destruct (ToUnifiedAddress x c) as [[r|e|k] c1] eqn:E.
    + case_decide; by apply IH.
    + by apply IH.
    + by destruct (ToUnifiedAddress_no_panic x c Hc k c1).
Qed.

(** C5: a list returned by [FilterPeers] holds no empty entry, not the
    node's own address and no string twice, and it is a subsequence of
    the resolved forms of the non-empty candidates, in their order,
    that misses none of them but the node's own address; and
    [FilterPeers] does return a list whenever the DNS cache hands back
    strings. *)
Theorem FilterPeers_spec (self : string) (xs : list string) (c : Cache) :
  (forall ys c',
      FilterPeers self xs c = (Ok ys, c') ->
      (EmptyString ∉ ys) /\
      (self ∉ ys) /\
      NoDup ys /\
      ys `sublist_of` resolutions xs c /\
      (forall r, r ∈ resolutions xs c -> r ≠ self -> r ∈ ys)) /\
  (cacheYieldsStrings ->
   exists ys c', FilterPeers self xs c = (Ok ys, c')).
Proof.
  split; [|by apply filterLoop_returns].
  intros ys c' (added & -> & Hnd & Hnew & Hsub & Hall)%filterLoop_spec.
  simpl. repeat split; [| |done..|].
  - intros Hin. eapply resolutions_nonempty, elem_of_sublist; done.
  - intros Hin%Hnew. set_solver.
  - intros r Hr Hne. destruct (Hall r Hr) as [Hv|]; [set_solver|done].
Qed.

End WithEnv.

Lemma fixture_cache_yields_strings : @cacheYieldsStrings Fixture.env.
Proof.
  unfold cacheYieldsStrings. cbn. intros c key loader.
  unfold Fixture.cacheGet.
  destruct (c !! key); [by cbn|]. by destruct (loader tt); cbn.
Qed.

Lemma FilterPeers_spec_witness :
  let xs := ["tcp://localhost:3001"; EmptyString; " tcp://127.0.0.1:3001";
             "tcp://127.0.0.1:3000"; "bogus"; "tcp://10.0.0.1:3001"] in
  let ys := ["tcp://127.0.0.1:3001"; "tcp://10.0.0.1:3001"] in
  ((EmptyString ∉ ys) /\
   ("tcp://127.0.0.1:3000" ∉ ys) /\
   NoDup ys /\
   ys `sublist_of` resolutions xs Fixture.emptyCache /\
   (forall r, r ∈ resolutions xs Fixture.emptyCache ->
              r ≠ "tcp://127.0.0.1:3000" -> r ∈ ys)) /\
  exists ys' c',
    FilterPeers "tcp://127.0.0.1:3000" xs Fixture.emptyCache = (Ok ys', c').
Proof.
  intros xs ys.
  pose proof (FilterPeers_spec "tcp://127.0.0.1:3000" xs
                Fixture.emptyCache) as [Hok Hret].
  split.
  - apply (Hok ys (<["10.0.0.1" := "10.0.0.1"]>
                     (<["127.0.0.1" := "127.0.0.1"]>
                        (<["localhost" := "127.0.0.1"]> ∅)))).
    vm_compute. reflexivity.
  - apply Hret, fixture_cache_yields_strings.
Defined.

End ResolverFacts.

(* ===================================================================== *)
(** * Properties of the peer client and of the node *)
(* ===================================================================== *)

Module NetworkFacts.
Import Network.


(** ** The trimming of the concrete environment *)

Lemma trimLeft_noLeadingSpace s : Fixture.noLeadingSpace (Fixture.trimLeft s).
Proof.
  induction s as [|a s IH]; simpl; [done|].
  destruct (Fixture.isSpace a) eqn:E; [done|]. simpl. done.
Qed.

Lemma trimLeft_id s : Fixture.noLeadingSpace s -> Fixture.trimLeft s = s.
Proof. destruct s as [|a s]; simpl; [done|]. by intros ->. Qed.

Lemma trimRight_noLeadingSpace s :
  Fixture.noLeadingSpace s -> Fixture.noLeadingSpace (Fixture.trimRight s).
Proof.
  destruct s as [|a s]; simpl; [done|]. intros Ha.
  destruct (Fixture.trimRight s); [by rewrite Ha|done].
Qed.

Lemma trimRight_idemp s :
  Fixture.trimRight (Fixture.trimRight s) = Fixture.trimRight s.
Proof.
  induction s as [|a s IH]; simpl; [done|].
  destruct (Fixture.trimRight s) as [|b r] eqn:E.
  - destruct (Fixture.isSpace a) eqn:Ea; simpl; [done|]. by rewrite Ea.
  - simpl in *. by rewrite IH.
Qed.

Lemma trim_idemp s : Fixture.trim (Fixture.trim s) = Fixture.trim s.
Proof.
  unfold Fixture.trim.
  rewrite (trimLeft_id (Fixture.trimRight _)).
  - apply trimRight_idemp.
  - apply trimRight_noLeadingSpace, trimLeft_noLeadingSpace.
Qed.

Section WithEnv.
Context `{Env}.

(* --------------------------------------------------------------------- *)
(** ** Self-dial *)

(** X17: when the canonical form of [address] is what [n.Address()]
    returns, [Dial] fails with the self-dial error; no client is
    created: the peers map, the dial count and the log of calls are as
    before. [TrimSpace] is taken to be idempotent, as the function of
    the Go library is. *)
Theorem Dial_self_rejected (w : World) (address canon : string)
    (c' : Cache) :
  (forall s, TrimSpace (TrimSpace s) = TrimSpace s) ->
  Resolver.ToUnifiedAddress address (cache w) = (Ok canon, c') ->
  canon = Address (network w) ->
  exists w',
    Dial address w = (Err "peer should not dial itself", w') /\
    Peers (network w') = Peers (network w) /\
    dials w' = dials w /\
    events w' = events w.
Proof.
  intros Hidem Hcanon ->. exists (setCache c' w).
  split; [|done].
  unfold Dial.
  assert (Resolver.ToUnifiedAddress (TrimSpace address) (cache w)
          = Resolver.ToUnifiedAddress address (cache w)) as Htrim.
  { unfold Resolver.ToUnifiedAddress. by rewrite Hidem. }
  rewrite Htrim, Hcanon.
  unfold Resolver.ToUnifiedAddress in Hcanon.
  case_decide as Hlen; [done|].
  cbn zeta. rewrite decide_True by done. done.
Qed.

(** Past the self-dial test and without a cached client, [Dial] is
    [client.Dial] on a fresh client. *)
Lemma Dial_fresh_client (w : World) (address canon : string) (c' : Cache) :
  String.length (TrimSpace address) <> 0%nat ->
  Resolver.ToUnifiedAddress (TrimSpace address) (cache w) = (Ok canon, c') ->
  canon <> Address (network w) ->
  Peers (network w) !! canon = None ->
  Dial address w
  = match clientDial canon createPeerClient (setCache c' w) with
    | (Some err, _, w') => (Err err, w')
    | (None, client, w') => (Ok client, w')
    end.
Proof.
  intros Hlen Hcanon Hself Hpeer. unfold Dial.
  rewrite decide_False by done. rewrite Hcanon. cbn zeta.
  rewrite decide_False by done. cbn [setCache network Peers].
  by rewrite Hpeer.
Qed.

(* --------------------------------------------------------------------- *)
(** ** Inbound envelopes *)

Lemma establishConnection_frame address c w err c' w' :
  establishConnection address c w = (err, c', w') ->
  Id c' = Id c /\ network w' = network w.
Proof.
  unfold establishConnection. destruct (Session c).
  - by intros [= <- <- <-].
  - destruct (transport _ _); by intros [= <- <- <-].
Qed.


(** [dispatch] appends one [Update] to the routing table and at most
    one handler call to the log. *)
Lemma dispatch_spec stream msg id w :
  Routes (network (dispatch stream msg id w))
  = Routes (network w) ++ [RUpdate id] /\
  (events (dispatch stream msg id w) = events w \/
   exists p m, UnmarshalAny (Message_ msg) = Done m /\
               Processors (network w) !! TypeName m = Some p /\
               events (dispatch stream msg id w)
               = events w ++ [EvHandle p (stid stream) m]).
Proof.
  unfold dispatch. destruct (UnmarshalAny (Message_ msg)) as [m|e].
  - cbn. destruct (Processors (network w) !! TypeName m) as [p|] eqn:E.
    + split; [done|]. right. by exists p, m.
    + split; [done|]. by left.
  - split; [done|]. by left.
Qed.

Lemma handleMessage_not_received stream c w e :
  received stream = Fail e -> dropped stream c w.
Proof.
  intros Hr. unfold dropped, handleMessage. rewrite Hr. eauto.
Qed.

Lemma handleMessage_other_sender stream c w msg cid id :
  received stream = Done msg -> Sender msg = Some id ->
  Id c = Some cid -> Equals cid id = false ->
  dropped stream c w.
Proof.
  intros Hr Hs Hc He. unfold dropped, handleMessage.
  rewrite Hr, Hs, Hc, He. cbn. eauto.
Qed.

Lemma handleMessage_keeps_Id stream c w cid r c' w' :
  Id c = Some cid ->
  handleMessage stream c w = (r, c', w') -> Id c' = Some cid.
Proof.
  intros Hc. unfold handleMessage.
  destruct (received stream) as [msg|]; [|by intros [= <- <- <-]].
  destruct (Sender msg) as [id|]; [|by intros [= <- <- <-]].
  rewrite Hc. destruct (negb _); by intros [= <- <- <-].
Qed.

Lemma handleMessage_binds_Id stream c w msg id :
  received stream = Done msg -> Sender msg = Some id -> Id c = None ->
  exists c' w', handleMessage stream c w = (Ok tt, c', w') /\
                Id c' = Some id.
Proof.
  intros Hr Hs Hc. unfold handleMessage. rewrite Hr, Hs, Hc.
  destruct (establishConnection _ _ w) as [[[e|] c1] w1] eqn:E;
    apply establishConnection_frame in E as [E _]; eauto.
Qed.

Lemma ingestAll_app l1 l2 c w :
  ingestAll (l1 ++ l2) c w =
  match ingestAll l1 c w with
  | (Ok _, c', w') => ingestAll l2 c' w'
  | r => r
  end.
Proof.
  revert c w. induction l1 as [|s l1 IH]; intros c w; simpl; [done|].
  destruct (handleMessage s c w) as [[[[]|e|k] c'] w']; by rewrite ?IH.
Qed.

Lemma ingestAll_none_received streams c w :
  Forall (fun s => exists e, received s = Fail e) streams ->
  exists w', ingestAll streams c w = (Ok tt, c, w').
Proof.
  intros Hall. revert w.
  induction Hall as [|s l [e He] _ IH]; intros w; simpl; [eauto|].
  destruct (handleMessage_not_received s c w e He) as (w' & -> & _).
  apply IH.
Qed.

Lemma ingestAll_keeps_Id streams c w cid r c' w' :
  Id c = Some cid ->
  ingestAll streams c w = (r, c', w') -> Id c' = Some cid.
Proof.
  revert c w. induction streams as [|s l IH]; intros c w Hc; simpl.
  - by intros [= <- <- <-].
  - destruct (handleMessage s c w) as [[[[]|e|k] c1] w1] eqn:E;
      pose proof (handleMessage_keeps_Id _ _ _ _ _ _ _ Hc E) as Hc1.
    + by apply IH.
    + by intros [= <- <- <-].
    + by intros [= <- <- <-].
Qed.

(** C1: on a client not yet bound, once the streams [pre], from which
    nothing is received, and then a stream carrying an envelope from
    [x] have been handled, [client.Id] is [x]; it stays [x] through any
    later streams [mid], and an envelope on a later stream whose sender
    [y] is not equal to [x] is dropped: no handler is invoked and the
    routing table is not updated, only the stream is closed. *)
Theorem identity_binding (c : PeerClient) (w : World)
    (pre : list Stream) (stream : Stream) (msg : Message) (x : ID) :
  Id c = None ->
  Forall (fun s => exists e, received s = Fail e) pre ->
  received stream = Done msg ->
  Sender msg = Some x ->
  exists c1 w1,
    ingestAll (pre ++ [stream]) c w = (Ok tt, c1, w1) /\
    Id c1 = Some x /\
    forall mid c2 w2 stream' msg' y,
      ingestAll mid c1 w1 = (Ok tt, c2, w2) ->
      received stream' = Done msg' ->
      Sender msg' = Some y ->
      Equals x y = false ->
      Id c2 = Some x /\
      exists w3,
        handleMessage stream' c2 w2 = (Ok tt, c2, w3) /\
        Routes (network w3) = Routes (network w2) /\
        events w3 = events w2 ++ [EvStreamClose (stid stream')].
Proof.
  intros Hc Hpre Hr Hs.
  destruct (ingestAll_none_received pre c w Hpre) as (w0 & Hpre0).
  destruct (handleMessage_binds_Id stream c w0 msg x Hr Hs Hc)
    as (c1 & w1 & Hh & Hc1).
  exists c1, w1. split; [|split; [done|]].
  - rewrite ingestAll_app, Hpre0. simpl. by rewrite Hh.
  - intros mid c2 w2 stream' msg' y Hmid Hr' Hs' Hne.
    pose proof (ingestAll_keeps_Id _ _ _ _ _ _ _ Hc1 Hmid) as Hc2.
    split; [done|].
    by apply (handleMessage_other_sender stream' c2 w2 msg' x y).
Qed.

(* --------------------------------------------------------------------- *)
(** ** Decoding, the routing table and the handlers *)


(* --------------------------------------------------------------------- *)
(** ** Reconnection *)

Lemma establishConnection_dials address c w err c' w' :
  establishConnection address c w = (err, c', w') ->
  (dials w' <= S (dials w))%nat.
Proof.
  unfold establishConnection. destruct (Session c).
  - intros [= <- <- <-]. lia.
  - destruct (transport _ _); intros [= <- <- <-]; cbn; lia.
Qed.

Lemma close_frame c w :
  dials (close c w) = dials w /\ events (close c w) = events w /\
  Peers (network (close c w)) = Peers (network w).
Proof.
  unfold close. destruct (Id c); [|done].
  by destruct (PeerExists _ _).
Qed.

Lemma retry_dials n : forall c w r c' w',
  retry n c w = (r, c', w') -> (dials w' <= dials w + n)%nat.
Proof.
  induction n as [|n IH]; intros c w r c' w'; simpl.
  - intros [= <- <- <-]. destruct (close_frame c w) as [-> _]. lia.
  - destruct (Id c) as [id|]; [|intros [= <- <- <-]; lia].
    destruct (establishConnection _ c w) as [[[e|] c1] w1] eqn:E;
      apply establishConnection_dials in E.
    + intros Hr%IH. cbn in Hr. lia.
    + intros [= <- <- <-]. lia.
Qed.

Lemma retry_exhausted n : forall c w id,
  Id c = Some id ->
  Session c = None ->
  (forall i, (i < n)%nat ->
             unreachable (transport (dials w + i) (IDAddress id))) ->
  exists c' w',
    retry n c w = (Err "unable to reestablish connection", c', w') /\
    Id c' = Some id /\
    Session c' = None /\
    dials w' = (dials w + n)%nat /\
    events w' = events w ++ attemptEvents (IDAddress id) (Backoff c) n /\
    Routes (network w') =
      (if PeerExists (Routes (network w)) id
       then Routes (network w) ++ [RRemovePeer id]
       else Routes (network w)) /\
    Peers (network w') = Peers (network w).
Proof.
  induction n as [|n IH]; intros c w id Hid Hs Hfail; simpl.
  - eexists _, _. split; [done|]. unfold close. rewrite Hid.
    rewrite app_nil_r, Nat.add_0_r.
    by destruct (PeerExists _ _).
  - rewrite Hid. unfold establishConnection. rewrite Hs.
    pose proof (Hfail 0%nat ltac:(lia)) as H0. rewrite Nat.add_0_r in H0.
    set (w1 := {| network := network w; cache := cache w;
                  events := events w ++ [EvDial (IDAddress id)];
                  dials := S (dials w) |}).
    assert (exists e c1,
      match transport (dials w) (IDAddress id) with
      | DialFails err => (Some err, c, w1)
      | MuxFails err => (Some err, setSession None c, w1)
      | Connected s => (None, setSession (Some s) c, w1)
      end = (Some e, c1, w1) /\ Id c1 = Some id /\ Session c1 = None /\
      Backoff c1 = Backoff c) as (e & c1 & -> & Hid1 & Hs1 & Hb1).
    { destruct (transport _ _); [eauto 10..|done]. }
    destruct (IH (setBackoff (S (Backoff c1)) c1)
                 (emit (EvSleep (ForAttempt (Backoff c1))) w1) id)
      as (c' & w' & -> & ? & ? & Hd & He & Hr & Hp); [done..| |].
    { intros i Hi. cbn. replace (S (dials w + i)) with (dials w + S i)%nat
        by lia. apply Hfail. lia. }
    exists c', w'. split; [done|]. split; [done|]. split; [done|].
    cbn in Hd, He, Hr, Hp. rewrite Hb1 in He.
    split; [lia|]. split; [by rewrite He, <- !app_assoc|done].
Qed.

(** C4 (amended): [reestablishConnection] dials at most 5 times. When
    the client is bound to [id], its open session (if any) closes
    without error and all 5 dials fail, the call closes that session,
    makes the 5 attempts, each followed by a sleep of the next backoff
    duration, and returns the error; the client is left without a
    session, [id] is removed from the routing table if the table holds
    it, and the peers map is as it was. *)
Theorem reconnect_exhaustion (c : PeerClient) (w : World) :
  (forall r c' w',
      reestablishConnection c w = (r, c', w') ->
      (dials w' <= dials w + 5)%nat) /\
  (forall id,
      Id c = Some id ->
      (forall s, Session c = Some s -> IsClosed s = false ->
                 CloseErr s = None) ->
      (forall i, (i < 5)%nat ->
                 unreachable (transport (dials w + i) (IDAddress id))) ->
      exists c' w',
        reestablishConnection c w
        = (Err "unable to reestablish connection", c', w') /\
        Id c' = Some id /\
        Session c' = None /\
        dials w' = (dials w + 5)%nat /\
        events w' =
          events w ++
          match Session c with
          | Some s => if IsClosed s then [] else [EvSessionClose (sid s)]
          | None => []
          end ++ attemptEvents (IDAddress id) 0 5 /\
        Routes (network w') =
          (if PeerExists (Routes (network w)) id
           then Routes (network w) ++ [RRemovePeer id]
           else Routes (network w)) /\
        Peers (network w') = Peers (network w)).
Proof.
  split.
  - intros r c' w'. unfold reestablishConnection.
    destruct (Session c) as [s|]; [destruct (IsClosed s); cbn [negb]|].
    + by intros ?%retry_dials.
    + destruct (CloseErr s); [intros [= <- <- <-]; cbn; lia|].
      by intros ?%retry_dials.
    + by intros ?%retry_dials.
  - intros id Hid Hclose Hfail. unfold reestablishConnection, maxAttempts.
    destruct (Session c) as [s|] eqn:Hs;
      [destruct (IsClosed s) eqn:Hcl; cbn [negb]|].
    + destruct (retry_exhausted 5 (setSession None (setBackoff 0%nat c))
                  w id) as (c' & w' & -> & ?); [done..|]. eauto.
    + rewrite (Hclose s) by done.
      destruct (retry_exhausted 5 (setSession None (setBackoff 0%nat c))
                  (emit (EvSessionClose (sid s)) w) id)
        as (c' & w' & -> & ? & ? & ? & He & ?); [done..|].
      cbn in He. rewrite <- app_assoc in He. eauto 10.
    + destruct (retry_exhausted 5 (setSession None (setBackoff 0%nat c))
                  w id) as (c' & w' & -> & ?); [done..|]. eauto.
Qed.

(* --------------------------------------------------------------------- *)
(** ** Random broadcast *)

Lemma wrapInt_small z : - 2 ^ 63 <= z < 2 ^ 63 -> wrapInt z = z.
Proof. intros Hz. unfold wrapInt. rewrite Z.mod_small; lia. Qed.

Lemma sends_app evs1 evs2 : sends (evs1 ++ evs2) = sends evs1 ++ sends evs2.
Proof. apply omap_app. Qed.

(** The scan never returns an error, keeps what was gathered, and takes
    at most one address per entry. *)
Lemma gather_length entries : forall addresses K l,
  gather entries addresses K = Ok l ->
  (length addresses <= length l <= length addresses + length entries)%nat.
Proof.
  induction entries as [|[key client] entries IH];
    intros addresses K l; simpl.
  - intros [= <-]. lia.
  - destruct (Id client); [|done].
    destruct (_ <? _).
    + intros [= <-]. rewrite length_app. simpl. lia.
    + intros Hl%IH. rewrite length_app in Hl. simpl in Hl. lia.
Qed.

(** The scan stops at the first length above the threshold. *)
Lemma gather_stops entries : forall addresses K l,
  gather entries addresses K = Ok l ->
  Z.of_nat (length addresses) <= Z.max 0 (wrapInt (K * 3)) ->
  Z.of_nat (length l) <= Z.max 0 (wrapInt (K * 3)) + 1 /\
  (Z.max 0 (wrapInt (K * 3))
     < Z.of_nat (length addresses + length entries) ->
   Z.of_nat (length l) = Z.max 0 (wrapInt (K * 3)) + 1).
Proof.
  induction entries as [|[key client] entries IH];
    intros addresses K l; simpl.
  - intros [= <-]. lia.
  - destruct (Id client); [|done].
    destruct (Z.ltb_spec (wrapInt (K * 3))
                (Z.of_nat (length (addresses ++ [IDAddress i]))))
      as [Hlt|Hge].
    + intros [= <-]. rewrite length_app in *. simpl in *. lia.
    + intros Hl Hacc. apply IH in Hl; rewrite length_app in *;
        simpl in *; [|lia].
      destruct Hl as [Hle Heq]. split; [done|]. intros ?. apply Heq. lia.
Qed.

Lemma swap_length addresses i j :
  length (swap addresses i j) = length addresses.
Proof.
  unfold swap. destruct (addresses !! i); [|done].
  destruct (addresses !! j); [|done]. by rewrite !length_insert.
Qed.

Lemma shuffleFrom_length rnd i : forall addresses,
  length (shuffleFrom rnd i addresses) = length addresses.
Proof.
  induction i as [|i IH]; intros addresses; simpl; [done|].
  by rewrite IH, swap_length.
Qed.

Lemma Shuffle_length rnd addresses :
  length (Shuffle rnd addresses) = length addresses.
Proof. apply shuffleFrom_length. Qed.

Lemma swap_Permutation addresses i j : swap addresses i j ≡ₚ addresses.
Proof.
  unfold swap. destruct (addresses !! i) eqn:Ei; [|done].
  destruct (addresses !! j) eqn:Ej; [|done].
  by apply Permutation_insert_swap.
Qed.

(** The shuffle rearranges the addresses and changes nothing else. *)
Lemma Shuffle_Permutation rnd addresses : Shuffle rnd addresses ≡ₚ addresses.
Proof.
  unfold Shuffle. generalize (length addresses - 1)%nat as i.
  intros i. revert addresses.
  induction i as [|i IH]; intros addresses; simpl; [done|].
  by rewrite IH, swap_Permutation.
Qed.

Lemma Tell_sends message c w err w' :
  Tell message c w = (err, w') ->
  network w' = network w /\
  exists evs, events w' = events w ++ evs /\ (length (sends evs) <= 1)%nat.
Proof.
  unfold Tell. destruct (Session c) as [s|].
  - destruct (OpenStreamErr s).
    + intros [= <- <-]. split; [done|]. exists [].
      rewrite app_nil_r. split; [done|cbn; lia].
    + destruct (SendErr s); intros [= <- <-]; (split; [done|]);
        exists [EvSend (sid s) message]; (split; [done|cbn; lia]).
  - intros [= <- <-]. split; [done|]. exists [].
    rewrite app_nil_r. split; [done|cbn; lia].
Qed.

(** At most one envelope is sent per address handed over. *)
Lemma BroadcastByAddresses_sends message addresses : forall w r w',
  BroadcastByAddresses message addresses w = (r, w') ->
  exists evs, events w' = events w ++ evs /\
              (length (sends evs) <= length addresses)%nat.
Proof.
  induction addresses as [|a addresses IH]; intros w r w'; simpl.
  - intros [= <- <-]. exists []. rewrite app_nil_r. split; [done|cbn; lia].
  - destruct (Peers (network w) !! a) as [client|].
    + destruct (Tell message client w) as [err w1] eqn:E.
      apply Tell_sends in E as (Hn & evs1 & Hev1 & Hlen1).
      assert (forall r w',
        BroadcastByAddresses message addresses (Redial a w1)
        = (r, w') ->
        exists evs, events w' = events w ++ evs /\
                    (length (sends evs) <= S (length addresses))%nat)
        as Hrest.
      { intros r0 w0 (evs & Hev & Hlen)%IH. cbn in Hev.
        exists (evs1 ++ [EvRedial a] ++ evs).
        rewrite Hev, Hev1, <- !app_assoc. split; [done|].
        rewrite !sends_app, !length_app. cbn. lia. }
      destruct err as [e|]; [|by apply Hrest].
      destruct (Id client); [by apply Hrest|].
      intros [= <- <-]. exists evs1. split; [done|]. lia.
    + intros (evs & Hev & Hlen)%IH. exists evs. split; [done|]. lia.
Qed.

Lemma sliceTo_capK_nonneg addresses K :
  0 <= K ->
  sliceTo addresses (capK addresses K)
  = Ok (take (Z.to_nat (Z.min K (Z.of_nat (length addresses)))) addresses).
Proof.
  intros HK. unfold sliceTo, capK.
  destruct (Z.ltb_spec (Z.of_nat (length addresses)) K).
  - rewrite decide_True by lia. by rewrite Z.min_r by lia.
  - rewrite decide_True by lia. by rewrite Z.min_l by lia.
Qed.

Lemma sliceTo_capK_negative addresses K :
  K < 0 ->
  capK addresses K = K /\
  sliceTo addresses (capK addresses K) = Panic SliceBounds.
Proof.
  intros HK. unfold sliceTo, capK.
  destruct (Z.ltb_spec (Z.of_nat (length addresses)) K); [lia|].
  split; [done|]. by rewrite decide_False by lia.
Qed.

(** C7 (amended): [BroadcastRandomly] sends at most [min(K, |peers|)]
    envelopes, and none when [K] is not positive. For [K >= 0] with
    [3K] an [int], its scan of the peers gathers at most [3K + 1]
    addresses, and exactly that many when there are more than [3K]
    peers: it stops once more than [3K] are gathered. What is handed to
    [BroadcastByAddresses] is the first [min(K, len)] addresses of the
    shuffled list, a rearrangement of the gathered one. *)
Theorem BroadcastRandomly_bounds (rnd : nat -> nat)
    (message : ProtoMessage) (K : Z) (w : World) :
  let peers := Peers (network w) in
  (exists r w' evs,
      BroadcastRandomly rnd message K w = (r, w') /\
      events w' = events w ++ evs /\
      Z.of_nat (length (sends evs))
      <= Z.max 0 (Z.min K (Z.of_nat (size peers)))) /\
  (forall l,
      gather (map_to_list peers) [] K = Ok l ->
      0 <= K -> K * 3 < 2 ^ 63 ->
      Z.of_nat (length l) <= 3 * K + 1 /\
      (3 * K < Z.of_nat (size peers) -> Z.of_nat (length l) = 3 * K + 1) /\
      Shuffle rnd l ≡ₚ l /\
      BroadcastRandomly rnd message K w =
        BroadcastByAddresses message
          (take (Z.to_nat (Z.min K (Z.of_nat (length l)))) (Shuffle rnd l))
          w).
Proof.
  intros peers. split.
  - unfold BroadcastRandomly. fold peers.
    destruct (gather (map_to_list peers) [] K) as [l|e|k] eqn:E.
    2,3: eexists _, _, []; rewrite app_nil_r; (split; [done|]);
         (split; [done|]); cbn; lia.
    apply gather_length in E. rewrite length_map_to_list in E. cbn in E.
    destruct (Z_lt_le_dec K 0) as [Hneg|Hpos].
    + destruct (sliceTo_capK_negative (Shuffle rnd l) K Hneg) as [_ ->].
      eexists _, _, []. rewrite app_nil_r. split; [done|].
      split; [done|]. cbn. lia.
    + rewrite sliceTo_capK_nonneg by done.
      destruct (BroadcastByAddresses message _ w) as [r w'] eqn:B.
      apply BroadcastByAddresses_sends in B as (evs & Hev & Hlen).
      exists r, w', evs. split; [done|]. split; [done|].
      rewrite length_take, Shuffle_length in Hlen. lia.
  - intros l E HK H3K.
    pose proof (gather_stops _ _ _ _ E) as Hstop.
    rewrite wrapInt_small, length_map_to_list in Hstop by lia.
    cbn [length Nat.add] in Hstop. fold peers in Hstop.
    destruct Hstop as [Hle Heq]; [lia|].
    split; [lia|]. split; [lia|]. split; [apply Shuffle_Permutation|].
    unfold BroadcastRandomly. fold peers. rewrite E.
    rewrite sliceTo_capK_nonneg, Shuffle_length by done. done.
Qed.

Lemma gather_faults entries addresses K :
  match gather entries addresses K with
  | Ok _ => True
  | Err _ => False
  | Panic k => k = NilDereference
  end.
Proof.
  revert addresses.
  induction entries as [|[key cl] es IH]; intros acc; simpl; [done|].
  destruct (Id cl); [|done]. destruct (_ <? _); [done|]. apply IH.
Qed.

Lemma BroadcastByAddresses_faults message addresses w :
  match (BroadcastByAddresses message addresses w).1 with
  | Ok _ => True
  | Err _ => False
  | Panic k => k = NilDereference
  end.
Proof.
  revert w. induction addresses as [|a rest IH]; intros w; simpl; [done|].
  destruct (Peers (network w) !! a) as [client|]; [|apply IH].
  destruct (Tell message client w) as [[e|] w1]; [|apply IH].
  destruct (Id client); [apply IH|done].
Qed.

(** C10: for [K >= 0] the slice [addresses[:K]], taken after [K] is
    capped at [len(addresses)], is in bounds and holds the first
    [min(K, len)] addresses: once its scan of the peers has ended,
    [BroadcastRandomly] goes on to [BroadcastByAddresses] with these, and
    it never ends in the panic of a slice out of bounds. For [K < 0] the
    cap does not fire and the slice expression panics, so that
    [BroadcastRandomly] ends in a panic, having sent nothing. *)
Theorem BroadcastRandomly_negative_K (rnd : nat -> nat)
    (message : ProtoMessage) (K : Z) (w : World) :
  (0 <= K ->
   (forall addresses,
     sliceTo addresses (capK addresses K)
     = Ok (take (Z.to_nat (Z.min K (Z.of_nat (length addresses))))
                addresses)) /\
   (forall l,
       gather (map_to_list (Peers (network w))) [] K = Ok l ->
       BroadcastRandomly rnd message K w =
         BroadcastByAddresses message
           (take (Z.to_nat (Z.min K (Z.of_nat (length l)))) (Shuffle rnd l))
           w) /\
   (forall w', BroadcastRandomly rnd message K w <> (Panic SliceBounds, w')))
  /\
  (K < 0 ->
   (forall addresses,
       capK addresses K = K /\
       sliceTo addresses (capK addresses K) = Panic SliceBounds) /\
   (exists k, BroadcastRandomly rnd message K w = (Panic k, w)) /\
   (forall l,
       gather (map_to_list (Peers (network w))) [] K = Ok l ->
       BroadcastRandomly rnd message K w = (Panic SliceBounds, w))).
Proof.
  split.
  - intros HK.
    assert (forall l,
      gather (map_to_list (Peers (network w))) [] K = Ok l ->
      BroadcastRandomly rnd message K w =
        BroadcastByAddresses message
          (take (Z.to_nat (Z.min K (Z.of_nat (length l)))) (Shuffle rnd l))
          w) as Hs.
    { intros l E. unfold BroadcastRandomly. rewrite E. cbn zeta.
      by rewrite sliceTo_capK_nonneg, Shuffle_length. }
    split; [intros; by apply sliceTo_capK_nonneg|]. split; [done|].
    intros w' Hp.
    pose proof (gather_faults (map_to_list (Peers (network w))) [] K) as Hg.
    destruct (gather (map_to_list (Peers (network w))) [] K)
      as [l|e|k] eqn:E.
    + rewrite (Hs l eq_refl) in Hp.
      pose proof (BroadcastByAddresses_faults message
        (take (Z.to_nat (Z.min K (Z.of_nat (length l)))) (Shuffle rnd l)) w)
        as Hb.
      rewrite Hp in Hb. cbn in Hb. discriminate Hb.
    + done.
    + unfold BroadcastRandomly in Hp. rewrite E in Hp.
      injection Hp as Hk _. congruence.
  - intros HK. split; [intros; by apply sliceTo_capK_negative|].
    assert (forall l,
      gather (map_to_list (Peers (network w))) [] K = Ok l ->
      BroadcastRandomly rnd message K w = (Panic SliceBounds, w)) as Hs.
    { intros l E. unfold BroadcastRandomly. rewrite E.
      by destruct (sliceTo_capK_negative (Shuffle rnd l) K HK) as [_ ->]. }
    split; [|done].
    pose proof (gather_faults (map_to_list (Peers (network w))) [] K) as Hg.
    destruct (gather (map_to_list (Peers (network w))) [] K)
      as [l|e|k] eqn:E.
    + exists SliceBounds. by apply (Hs l).
    + done.
    + exists k. unfold BroadcastRandomly. by rewrite E.
Qed.

End WithEnv.

#[local] Existing Instance Fixture.env.

Lemma Dial_self_rejected_witness :
  exists w',
    Dial " //localhost:3000  " Fixture.world
    = (Err "peer should not dial itself", w') /\
    Peers (network w') = Peers (network Fixture.world) /\
    dials w' = dials Fixture.world /\
    events w' = events Fixture.world.
Proof.
  apply (Dial_self_rejected Fixture.world " //localhost:3000  "
           "127.0.0.1:3000"
           (<["localhost" := "127.0.0.1"]> Fixture.emptyCache)).
  - apply trim_idemp.
  - vm_compute. reflexivity.
  - vm_compute. reflexivity.
Defined.

(** C3 (a defect of the code): the node listening on 127.0.0.1:3000 is
    given its own address, [tcp://127.0.0.1:3000], which is already in
    canonical form. [Dial] compares it with [n.Address()], the bare
    [127.0.0.1:3000], so the self-dial error is not returned: a client is
    created and [client.Dial] is called on it with the node's own
    address. With [PeerClient.Dial] as the spec describes it, the
    transport is dialled and the peers map gains an entry. *)
Theorem Dial_own_address_not_rejected :
  Addr.FormatAddress "tcp" (Host Fixture.node) (Port Fixture.node)
  = "tcp://127.0.0.1:3000" /\
  (Resolver.ToUnifiedAddress "tcp://127.0.0.1:3000"
     (cache Fixture.world)).1 = Ok "tcp://127.0.0.1:3000" /\
  Address (network Fixture.world) = "127.0.0.1:3000" /\
  (Dial "tcp://127.0.0.1:3000" Fixture.world).1
  <> Err "peer should not dial itself" /\
  Dial "tcp://127.0.0.1:3000" Fixture.world
  = (let w := setCache (Resolver.ToUnifiedAddress "tcp://127.0.0.1:3000"
                          (cache Fixture.world)).2 Fixture.world in
     match clientDial "tcp://127.0.0.1:3000" createPeerClient w with
     | (Some err, _, w') => (Err err, w')
     | (None, client, w') => (Ok client, w')
     end) /\
  exists client w',
    Dial "tcp://127.0.0.1:3000" Fixture.world = (Ok client, w') /\
    Peers (network w') = {[ "tcp://127.0.0.1:3000" := client ]} /\
    size (Peers (network w'))
    = S (size (Peers (network Fixture.world))) /\
    dials w' = S (dials Fixture.world) /\
    events w' = events Fixture.world ++ [EvDial "tcp://127.0.0.1:3000"].
Proof.
  assert (Hcanon :
    (Resolver.ToUnifiedAddress "tcp://127.0.0.1:3000"
       (cache Fixture.world)).1 = Ok "tcp://127.0.0.1:3000")
    by (vm_compute; reflexivity).
  assert (Hres :
    (Dial "tcp://127.0.0.1:3000" Fixture.world).1
    = Ok {| Id := None; Session := Some (Fixture.openSession 0);
            Backoff := 0 |})
    by (vm_compute; reflexivity).
  split; [vm_compute; reflexivity|].
  split; [exact Hcanon|].
  split; [vm_compute; reflexivity|].
  split; [rewrite Hres; intros [=]|].
  split.
  - cbn zeta.
    apply (Dial_fresh_client Fixture.world "tcp://127.0.0.1:3000"
             "tcp://127.0.0.1:3000").
    + vm_compute. intros [=].
    + replace (TrimSpace "tcp://127.0.0.1:3000")
        with "tcp://127.0.0.1:3000" by (vm_compute; reflexivity).
      rewrite <- Hcanon. by destruct (Resolver.ToUnifiedAddress _ _).
    + vm_compute. intros [=].
    + vm_compute. reflexivity.
  - exists {| Id := None; Session := Some (Fixture.openSession 0);
              Backoff := 0 |},
           (Dial "tcp://127.0.0.1:3000" Fixture.world).2.
    split; [rewrite <- Hres; by destruct (Dial _ _)|].
    repeat split; vm_compute; reflexivity.
Qed.

(** The comparison in [Dial] is with [Host:Port]: on the node at
    127.0.0.1:3000 the address [tcp://127.0.0.1:3000], whose canonical
    form keeps its scheme, is not taken for the node's own and is dialled. *)
Example Dial_own_address_with_scheme :
  Address (network Fixture.world) = "127.0.0.1:3000" /\
  (Resolver.ToUnifiedAddress "tcp://127.0.0.1:3000" Fixture.emptyCache).1
  = Ok "tcp://127.0.0.1:3000" /\
  (Dial "tcp://127.0.0.1:3000" Fixture.world).1
  = Ok {| Id := None; Session := Some (Fixture.openSession 0);
          Backoff := 0 |}.
Proof. vm_compute. repeat split. Qed.

(** Scenario E: after an envelope from [peerR], one from [peerY] on the
    same client leaves the routing table with [peerR] only; the one
    handler call is for the first envelope. *)
Example identity_binding_scenario :
  let '(_, c, w) :=
    ingestAll [Fixture.streamFromR; Fixture.streamFromY]
              createPeerClient Fixture.world in
  Id c = Some Fixture.peerR /\
  Routes (network w) = [RUpdate Fixture.peerR] /\
  events w = [EvDial "tcp://192.168.0.9:3001";
              EvHandle 0%nat 5%nat Fixture.handshake;
              EvStreamClose 5; EvStreamClose 4].
Proof. vm_compute. repeat split. Qed.

Lemma identity_binding_witness :
  exists c1 w1,
    ingestAll ([Fixture.lostStream] ++ [Fixture.streamFromX])
              createPeerClient Fixture.world = (Ok tt, c1, w1) /\
    Id c1 = Some Fixture.peerX /\
    forall mid c2 w2 stream' msg' y,
      ingestAll mid c1 w1 = (Ok tt, c2, w2) ->
      received stream' = Done msg' ->
      Sender msg' = Some y ->
      Equals Fixture.peerX y = false ->
      Id c2 = Some Fixture.peerX /\
      exists w3,
        handleMessage stream' c2 w2 = (Ok tt, c2, w3) /\
        Routes (network w3) = Routes (network w2) /\
        events w3 = events w2 ++ [EvStreamClose (stid stream')].
Proof.
  apply (identity_binding createPeerClient Fixture.world
           [Fixture.lostStream] Fixture.streamFromX
           (Fixture.envelope Fixture.peerX Fixture.handshakeBody)
           Fixture.peerX).
  - reflexivity.
  - repeat constructor. by exists "EOF".
  - reflexivity.
  - reflexivity.
Defined.



Lemma peerX_unreachable i :
  unreachable (transport i (IDAddress Fixture.peerX)).
Proof. exact I. Qed.

(** C4, as claimed, fails: after five failed attempts for the client
    bound to [peerX] the call returns the error, yet the entry of the
    client under its address is still in the peers map; [close] only
    touches the routing table. *)
Lemma reconnect_exhaustion_counterexample :
  ~ (forall (c : PeerClient) (w : World) id c' w',
        Id c = Some id ->
        Peers (network w) !! IDAddress id = Some c ->
        (forall i, (i < 5)%nat ->
                   unreachable (transport (dials w + i) (IDAddress id))) ->
        reestablishConnection c w
        = (Err "unable to reestablish connection", c', w') ->
        Peers (network w') !! IDAddress id = None).
Proof.
  intros Hclaim.
  specialize (Hclaim Fixture.clientX Fixture.worldX Fixture.peerX _ _
                     eq_refl eq_refl (fun i _ => peerX_unreachable _)
                     eq_refl).
  vm_compute in Hclaim. discriminate Hclaim.
Qed.

Lemma reconnect_exhaustion_witness :
  exists c' w',
    reestablishConnection Fixture.clientX Fixture.worldX
    = (Err "unable to reestablish connection", c', w') /\
    Id c' = Some Fixture.peerX /\
    Session c' = None /\
    dials w' = 5%nat /\
    events w' =
      [EvSessionClose 7] ++ attemptEvents "tcp://10.0.0.1:3001" 0 5 /\
    Routes (network w') = [RUpdate Fixture.peerX; RRemovePeer Fixture.peerX] /\
    Peers (network w') = Peers (network Fixture.worldX).
Proof.
  apply (proj2 (reconnect_exhaustion Fixture.clientX Fixture.worldX)
               Fixture.peerX).
  - reflexivity.
  - intros s [= <-] _. reflexivity.
  - intros i _. apply peerX_unreachable.
Defined.

(** C7, as claimed, fails: with five peers and [K = 1] the scan gathers
    four addresses, one more than [3K], because it stops when
    [len(addresses) > K*3]. *)
Lemma scan_stops_at_3K_counterexample :
  ~ (forall (w : World) (K : Z) l,
        gather (map_to_list (Peers (network w))) [] K = Ok l ->
        Z.of_nat (length l) <= 3 * K).
Proof.
  intros Hclaim.
  specialize (Hclaim Fixture.world5 1
                     ["tcp://192.168.0.3:3001"; "tcp://192.168.0.5:3001";
                      "tcp://192.168.0.1:3001"; "tcp://192.168.0.2:3001"]).
  vm_compute in Hclaim. by specialize (Hclaim eq_refl eq_refl).
Qed.

Lemma BroadcastRandomly_bounds_witness :
  let l := ["tcp://192.168.0.3:3001"; "tcp://192.168.0.5:3001";
            "tcp://192.168.0.1:3001"; "tcp://192.168.0.2:3001"] in
  Z.of_nat (length l) <= 3 * 1 + 1 /\
  (3 * 1 < Z.of_nat (size (Peers (network Fixture.world5))) ->
   Z.of_nat (length l) = 3 * 1 + 1) /\
  Shuffle (fun i => i) l ≡ₚ l /\
  BroadcastRandomly (fun i => i) Fixture.handshake 1 Fixture.world5 =
    BroadcastByAddresses Fixture.handshake
      (take (Z.to_nat (Z.min 1 (Z.of_nat (length l))))
            (Shuffle (fun i => i) l))
      Fixture.world5.
Proof.
  intros l.
  apply (proj2 (BroadcastRandomly_bounds (fun i => i) Fixture.handshake 1
                  Fixture.world5) l).
  - vm_compute. reflexivity.
  - lia.
  - lia.
Defined.

Lemma BroadcastRandomly_negative_K_witness :
  (sliceTo ["a"; "b"; "c"] (capK ["a"; "b"; "c"] 2)
   = Ok (take (Z.to_nat (Z.min 2 (Z.of_nat (length ["a"; "b"; "c"]))))
              ["a"; "b"; "c"])) /\
  BroadcastRandomly (fun _ => 0%nat) Fixture.handshake 2 Fixture.world5
  = BroadcastByAddresses Fixture.handshake
      ["tcp://192.168.0.5:3001"; "tcp://192.168.0.1:3001"] Fixture.world5 /\
  (forall w', BroadcastRandomly (fun _ => 0%nat) Fixture.handshake 2
                Fixture.world5 <> (Panic SliceBounds, w')) /\
  BroadcastRandomly (fun i => i) Fixture.handshake (-1) Fixture.world5
  = (Panic SliceBounds, Fixture.world5).
Proof.
  destruct (BroadcastRandomly_negative_K (fun _ => 0%nat) Fixture.handshake
              2 Fixture.world5) as [Hpos _].
  destruct Hpos as (Hslice & Hgo & Hsafe); [lia|].
  split; [apply Hslice|]. split; [|split; [apply Hsafe|]].
  - rewrite (Hgo ["tcp://192.168.0.3:3001"; "tcp://192.168.0.5:3001";
                  "tcp://192.168.0.1:3001"; "tcp://192.168.0.2:3001";
                  "tcp://192.168.0.4:3001"])
      by (vm_compute; reflexivity).
    reflexivity.
  - destruct (proj2 (BroadcastRandomly_negative_K (fun i => i)
                       Fixture.handshake (-1) Fixture.world5))
      as (_ & _ & Hs); [lia|].
    apply (Hs ["tcp://192.168.0.3:3001"]). vm_compute. reflexivity.
Defined.

End NetworkFacts.

(* ===================================================================== *)
(** * Further properties of the pool *)
(* ===================================================================== *)

Module PoolProperties.
Import Pool PoolFacts.




(** X2: [GetAndRenew] changes what no [Get] returns, for any key, and
    invokes no [Close]; what it returns is what [Get] returns; on a missing
    key it leaves the pool as it is. *)
Theorem GetAndRenew_frame t k p :
  (GetAndRenew t k p).1 = Get k p /\
  (forall k', Get k' (GetAndRenew t k p).2 = Get k' p) /\
  closeLog (GetAndRenew t k p).2 = closeLog p /\
  (Get k p = None -> (GetAndRenew t k p).2 = p).
Proof.
  unfold GetAndRenew, Get, getObject.
  destruct (objects p !! k) as [o|] eqn:Hk; cbn [fst snd objects closeLog].
  - split; [done|]. split; [|done]. intros k'.
    destruct (decide (k = k')) as [<-|Hne].
    + by rewrite lookup_insert_eq, Hk.
    + by rewrite lookup_insert_ne.
  - done.
Qed.

Lemma map_to_list_filter (P : string * Object -> Prop)
    `{!forall kv, Decision (P kv)} (m : gmap string Object) :
  map_to_list (filter P m) ≡ₚ filter P (map_to_list m).
Proof.
  rewrite map_filter_alt. apply map_to_list_to_map.
  apply (sublist_NoDup _ ((map_to_list m).*1)).
  - apply NoDup_fst_map_to_list.
  - apply fmap_sublist, sublist_filter.
Qed.

Lemma Gc_objects now p :
  objects (Gc now p)
  = filter (fun kv => ~ expiresAt kv.2 < now) (objects p).
Proof.
  apply map_eq. intros k. rewrite Gc_lookup. unfold Before.
  destruct (objects p !! k) as [o|] eqn:Hk.
  - destruct (Z.ltb_spec (expiresAt o) now).
    + symmetry. apply map_lookup_filter_None. right. intros o' Ho'.
      rewrite Hk in Ho'. injection Ho' as <-. cbn. lia.
    + symmetry. apply map_lookup_filter_Some. split; [done|]. cbn. lia.
  - symmetry. apply map_lookup_filter_None. by left.
Qed.

(** X3: [Gc] keeps exactly the entries that have not expired before the
    clock reading, unchanged, and invokes [Close] once for every entry it
    removes: the number of calls it adds to the log is the number of
    entries the pool loses. *)
Theorem Gc_accounting now p :
  objects (Gc now p)
  = filter (fun kv => ~ expiresAt kv.2 < now) (objects p) /\
  (length (closeLog (Gc now p)) + size (objects (Gc now p))
   = length (closeLog p) + size (objects p))%nat.
Proof.
  split; [apply Gc_objects|].
  rewrite Gc_closeLog, length_app, !length_fmap, Gc_objects.
  rewrite <- !length_map_to_list, map_to_list_filter.
  rewrite <- (filter_app_complement
                (fun kv : string * Object => expiresAt kv.2 < now)
                (map_to_list (objects p))) at 3.
  rewrite length_app. lia.
Qed.

Lemma filter_split_length {A} (P Q : A -> Prop)
    `{!forall x, Decision (P x)} `{!forall x, Decision (Q x)} (l : list A) :
  (forall x, P x -> Q x) ->
  length (filter Q l)
  = (length (filter P l) + length (filter Q (filter (fun x => ~ P x) l)))%nat.
Proof.
  intros HPQ. induction l as [|x l IH]; [done|].
  rewrite !filter_cons.
  destruct (decide (P x)) as [HP|HP].
  - rewrite decide_True by auto. rewrite decide_False by tauto.
    cbn. by rewrite IH.
  - rewrite (decide_True (P := ~ P x)) by done. rewrite filter_cons.
    destruct (decide (Q x)); cbn; rewrite IH; lia.
Qed.

(** X4: a sweep followed by a later sweep comes to the later sweep alone:
    for [now1 <= now2] the entries left are the same, and every handle
    has been closed the same number of times. *)
Theorem Gc_then_later_Gc now1 now2 p :
  now1 <= now2 ->
  objects (Gc now2 (Gc now1 p)) = objects (Gc now2 p) /\
  forall h, closeCount h (closeLog (Gc now2 (Gc now1 p)))
            = closeCount h (closeLog (Gc now2 p)).
Proof.
  intros Hle. split.
  - apply map_eq. intros k. rewrite !Gc_lookup. unfold Before.
    destruct (objects p !! k) as [o|]; [|done].
    destruct (Z.ltb_spec (expiresAt o) now1);
      destruct (Z.ltb_spec (expiresAt o) now2); try done; lia.
  - intros h. rewrite !Gc_closeCount, Gc_objects, map_to_list_filter.
    rewrite (filter_split_length
               (fun kv : string * Object =>
                  expiresAt kv.2 < now1 /\ handle kv.2 = h)
               (fun kv : string * Object =>
                  expiresAt kv.2 < now2 /\ handle kv.2 = h)
               (map_to_list (objects p))) by (intros ? [? ?]; split; [lia|done]).
    rewrite <- Nat.add_assoc. do 2 f_equal.
    induction (map_to_list (objects p)) as [|[k o] l IH]; [done|].
    rewrite !filter_cons. cbn [snd].
    destruct (decide (expiresAt o < now1)) as [H1|H1].
    + rewrite decide_False by tauto.
      destruct (decide (expiresAt o < now1 /\ handle o = h)) as [H2|H2].
      * rewrite decide_False by tauto. done.
      * rewrite (decide_True (P := ~ _)) by done. rewrite filter_cons.
        rewrite decide_False by (cbn; tauto). done.
    + rewrite decide_True by done.
      rewrite (decide_True (P := ~ (_ /\ _))) by tauto.
      rewrite !filter_cons. cbn [snd].
      destruct (decide (expiresAt o < now2 /\ handle o = h)); cbn; by rewrite IH.
Qed.

Lemma Gc_then_later_Gc_witness :
  let p := Add 0 "a" 1%nat {| AliveFor := 10 |}
             (Add 0 "b" 2%nat {| AliveFor := 20 |} NewPool) in
  objects (Gc 30 (Gc 15 p)) = objects (Gc 30 p) /\
  forall h, closeCount h (closeLog (Gc 30 (Gc 15 p)))
            = closeCount h (closeLog (Gc 30 p)).
Proof. intros p. apply (Gc_then_later_Gc 15 30 p). lia. Defined.

(** The entries of [q'] holding [h] are entries of [q] holding [h]. *)
Lemma heldOnce_sub h q q' :
  (forall k o, objects q' !! k = Some o -> handle o = h ->
               exists o', objects q !! k = Some o' /\ handle o' = h) ->
  (heldOnce h q -> heldOnce h q') /\ (notHeld h q -> notHeld h q').
Proof.
  intros Hsub. split.
  - intros Hq k1 k2 o1 o2 H1 H2 Hh1 Hh2.
    destruct (Hsub _ _ H1 Hh1) as (o1' & ? & ?).
    destruct (Hsub _ _ H2 Hh2) as (o2' & ? & ?). by eapply Hq.
  - intros Hq k o Hk Hh. destruct (Hsub _ _ Hk Hh) as (o' & ? & ?).
    by eapply Hq.
Qed.

Lemma step_holders h q o :
  addsHandle h o = false ->
  forall k ob, objects (step q o) !! k = Some ob -> handle ob = h ->
               exists ob', objects q !! k = Some ob' /\ handle ob' = h.
Proof.
  intros Hadd k ob. destruct o as [now key value cfg|key|now key|key|now];
    cbn [step].
  - cbn in Hadd. apply bool_decide_eq_false in Hadd. cbn.
    destruct (decide (key = k)) as [->|Hne].
    + rewrite lookup_insert_eq. intros [= <-]. by cbn.
    + rewrite lookup_insert_ne by done. eauto.
  - eauto.
  - unfold GetAndRenew, getObject.
    destruct (objects q !! key) as [o0|] eqn:E; cbn; [|eauto].
    destruct (decide (key = k)) as [->|Hne].
    + rewrite lookup_insert_eq. intros [= <-]. cbn. eauto.
    + rewrite lookup_insert_ne by done. eauto.
  - cbn. intros [_ Hk]%lookup_delete_Some. eauto.
  - rewrite Gc_lookup. destruct (objects q !! k) as [o0|]; [|done].
    destruct (Before _ _); [done|]. intros [= <-]. eauto.
Qed.

Lemma expired_holders_le_1 h now q :
  heldOnce h q ->
  (length (filter (fun kv : string * Object =>
                     (expiresAt kv.2 < now)%Z /\ handle kv.2 = h)
                  (map_to_list (objects q))) <= 1)%nat.
Proof.
  intros Hq.
  destruct (filter _ (map_to_list (objects q))) as [|[k o] l] eqn:E;
    [cbn; lia|].
  assert ((k, o) ∈ filter (fun kv : string * Object =>
                             expiresAt kv.2 < now /\ handle kv.2 = h)
                          (map_to_list (objects q))) as Hin
    by (rewrite E; left).
  apply list_elem_of_filter in Hin as [[Hlt Hh] Hin%elem_of_map_to_list].
  rewrite <- E.
  rewrite (filter_map_to_list_single _ _ k o); [done..|].
  intros k' o' Hk' [_ Hh']. by apply (Hq k' k o' o).
Qed.

(** X5: a handle held by at most one entry is closed at most once, over
    any sequence of pool operations that does not add it again; and once
    it has been closed no entry holds it any more. *)
Theorem no_double_close h ops p :
  heldOnce h p ->
  Forall (fun o => addsHandle h o = false) ops ->
  let c0 := closeCount h (closeLog p) in
  let c := closeCount h (closeLog (run ops p)) in
  (c = c0 \/ (c = S c0 /\ notHeld h (run ops p))) /\
  heldOnce h (run ops p).
Proof.
  intros Hp Hops c0. unfold run.
  induction ops as [|o ops IH] using rev_ind; cbn zeta.
  - split; [by left|done].
  - apply Forall_app in Hops as [Hops Ho]. apply Forall_inv in Ho.
    destruct (IH Hops) as [Hc Hheld]. clear IH. rewrite foldl_snoc.
    set (q := foldl step p ops) in *.
    destruct (heldOnce_sub h q (step q o) (step_holders h q o Ho))
      as [Hkeep1 Hkeep0].
    split; [|by apply Hkeep1].
    destruct (isGc o) eqn:Hgc.
    + destruct o as [| | | |now]; try discriminate. cbn [step].
      rewrite Gc_closeCount.
      destruct Hc as [Hc|[Hc Hnone]].
      * pose proof (expired_holders_le_1 h now q Hheld) as Hle.
        destruct (length (filter _ (map_to_list (objects q)))) as [|[|n]]
          eqn:El; [left; lia| |lia].
        right. split; [lia|].
        intros k o Hk Hh. rewrite Gc_lookup in Hk.
        destruct (objects q !! k) as [o0|] eqn:Hq; [|done].
        unfold Before in Hk.
        destruct (Z.ltb_spec (expiresAt o0) now); [done|].
        injection Hk as ->.
        destruct (filter _ (map_to_list (objects q))) as [|[k' o'] l] eqn:E;
          [done|].
        assert ((k', o') ∈ filter (fun kv : string * Object =>
                                     expiresAt kv.2 < now /\ handle kv.2 = h)
                                  (map_to_list (objects q))) as Hin
          by (rewrite E; left).
        apply list_elem_of_filter in Hin as [[Hlt Hh'] Hin%elem_of_map_to_list].
        cbn [snd] in *.
        assert (k' = k) as -> by (by apply (Hheld k' k o' o)).
        rewrite Hq in Hin. injection Hin as ->. lia.
      * right. rewrite filter_map_to_list_none.
        -- split; [cbn; lia|]. by apply Hkeep0.
        -- intros k o Hk [_ Hh]. by apply (Hnone k o).
    + rewrite step_closeLog by done.
      destruct Hc as [Hc|[Hc Hnone]]; [by left|].
      right. split; [done|]. by apply Hkeep0.
Qed.

Lemma no_double_close_witness :
  let p := Add 0 "foo" 7%nat {| AliveFor := 100 |} NewPool in
  let ops := [OpGc 50; OpGetAndRenew 60 "foo"; OpGc 200; OpGc 300;
              OpRemove "foo"; OpGc 400] in
  let c := closeCount 7%nat (closeLog (run ops p)) in
  (c = 0%nat \/ (c = 1%nat /\ notHeld 7%nat (run ops p))) /\
  heldOnce 7%nat (run ops p).
Proof.
  intros p ops.
  apply (no_double_close 7%nat ops p).
  - intros k1 k2 o1 o2 H1 H2 _ _. cbn in H1, H2.
    destruct (decide (k1 = "foo")) as [->|Hne1];
      [|by rewrite lookup_insert_ne, lookup_empty in H1].
    destruct (decide (k2 = "foo")) as [->|Hne2];
      [done|by rewrite lookup_insert_ne, lookup_empty in H2].
  - repeat constructor.
Defined.

Lemma step_absent key q o :
  addsKey key o = false ->
  objects q !! key = None -> objects (step q o) !! key = None.
Proof.
  intros Hadd Hk. destruct o as [now k value cfg|k|now k|k|now]; cbn [step].
  - cbn in Hadd. apply bool_decide_eq_false in Hadd. cbn.
    by rewrite lookup_insert_ne.
  - done.
  - unfold GetAndRenew, getObject.
    destruct (objects q !! k) as [o0|] eqn:E; cbn; [|done].
    rewrite lookup_insert_ne; [done|]. intros ->. congruence.
  - cbn. apply lookup_delete_None. by right.
  - by rewrite Gc_lookup, Hk.
Qed.

(** X6: an entry is never resurrected: a key for which [Get] finds
    nothing stays not-found over any sequence of pool operations in which
    no [Add] stores under that key. *)
Theorem never_resurrected key ops p :
  Get key p = None ->
  Forall (fun o => addsKey key o = false) ops ->
  Get key (run ops p) = None.
Proof.
  intros Hk Hops.
  assert (objects (run ops p) !! key = None) as Hnone.
  { unfold run. induction ops as [|o ops IH] using rev_ind.
    - unfold Get, getObject in Hk. cbn. by destruct (objects p !! key).
    - apply Forall_app in Hops as [Hops Ho]. apply Forall_inv in Ho.
      rewrite foldl_snoc. apply step_absent; [done|by apply IH]. }
  unfold Get, getObject. by rewrite Hnone.
Qed.

Lemma never_resurrected_witness :
  Get "foo"
      (run [OpGetAndRenew 200 "foo"; OpAdd 200 "bar" 8%nat {| AliveFor := 5 |};
            OpGc 300]
           (Gc 101 (Add 0 "foo" 7%nat {| AliveFor := 100 |} NewPool)))
  = None.
Proof.
  apply never_resurrected.
  - vm_compute. reflexivity.
  - repeat constructor.
Defined.

End PoolProperties.

(* ===================================================================== *)
(** * Further properties of the address layer *)
(* ===================================================================== *)

Module AddressProperties.
Import Addr.

Lemma append_String a s t : String a s +:+ t = String a (s +:+ t).
Proof. reflexivity. Qed.

Lemma append_assoc s t u : (s +:+ t) +:+ u = s +:+ t +:+ u.
Proof.
  induction s as [|a s IH]; [done|]. by rewrite !append_String, IH.
Qed.

Lemma length_append s t :
  String.length (s +:+ t) = (String.length s + String.length t)%nat.
Proof.
  induction s as [|a s IH]; [done|]. rewrite append_String. cbn. by rewrite IH.
Qed.

Lemma hasByte_append c s t :
  hasByte c (s +:+ t) = hasByte c s || hasByte c t.
Proof.
  induction s as [|a s IH]; [done|]. rewrite append_String. cbn.
  by destruct (decide (a = c)).
Qed.

(** Two ways of cutting a string at a byte that does not occur after the
    cut are the same way. *)
Lemma last_split c a1 : forall a2 b1 b2,
  hasByte c b1 = false -> hasByte c b2 = false ->
  a1 +:+ String c b1 = a2 +:+ String c b2 -> a1 = a2 /\ b1 = b2.
Proof.
  induction a1 as [|d a1 IH]; intros [|e a2] b1 b2 H1 H2.
  - by intros [= <-].
  - rewrite append_String. intros [= <- ->].
    rewrite hasByte_append in H1. cbn in H1. rewrite decide_True in H1 by done.
    by rewrite orb_true_r in H1.
  - rewrite append_String. intros [= -> <-].
    rewrite hasByte_append in H2. cbn in H2. rewrite decide_True in H2 by done.
    by rewrite orb_true_r in H2.
  - rewrite !append_String. intros [= -> Heq].
    by destruct (IH _ _ _ H1 H2 Heq) as [-> ->].
Qed.

Lemma hasByte_pretty_N_go c x : forall s,
  (forall d, pretty_N_char d ≠ c) ->
  hasByte c (pretty_N_go x s) = hasByte c s.
Proof.
  induction (N.lt_wf_0 x) as [x _ IH]; intros s Hc.
  assert (x = 0 \/ 0 < x)%N as [->|Hx] by lia.
  - by rewrite pretty_N_go_0.
  - rewrite pretty_N_go_step by done.
    rewrite IH by (done || by apply N.div_lt).
    cbn. rewrite decide_False; [done|apply Hc].
Qed.

Lemma digit_not_colon d : pretty_N_char d ≠ ":"%char.
Proof. unfold pretty_N_char. by repeat case_match. Qed.

(** A printed integer has no colon in it. *)
Lemma hasByte_Itoa_colon z : hasByte ":" (Itoa z) = false.
Proof.
  unfold Itoa, pretty, pretty_Z.
  destruct z as [|x|x]; [done| |];
    unfold pretty, pretty_positive, pretty, pretty_N;
    rewrite decide_False by done.
  - by rewrite hasByte_pretty_N_go by apply digit_not_colon.
  - rewrite hasByte_append, hasByte_pretty_N_go by apply digit_not_colon.
    done.
Qed.

(** [JoinHostPort] ends in a colon and the port; what precedes is the host,
    bracketed when it has a colon. *)
Lemma JoinHostPort_cut host port :
  JoinHostPort host port
  = (if hasByte ":" host then "[" +:+ host +:+ "]" else host)
    +:+ String ":" port.
Proof.
  unfold JoinHostPort. destruct (hasByte ":" host); [|done].
  by rewrite !append_assoc.
Qed.

Lemma JoinHostPort_inj h1 h2 p1 p2 :
  hasByte ":" p1 = false -> hasByte ":" p2 = false ->
  JoinHostPort h1 p1 = JoinHostPort h2 p2 -> h1 = h2 /\ p1 = p2.
Proof.
  intros Hp1 Hp2. rewrite !JoinHostPort_cut.
  intros [Hh ->]%last_split; [|done..]. split; [|done].
  destruct (hasByte ":" h1) eqn:E1, (hasByte ":" h2) eqn:E2.
  - injection Hh as Hh. by apply (last_split "]" h1 h2 "" "") in Hh as [-> _].
  - subst h2. rewrite !hasByte_append, E1 in E2. cbn in E2.
    by rewrite orb_true_r in E2.
  - subst h1. rewrite !hasByte_append, E2 in E1. cbn in E1.
    by rewrite orb_true_r in E1.
  - done.
Qed.

(** X7: [Raw] is injective: the [host:port] string names one host and one
    port, bracketed IPv6 literals included; and so does, for a given
    scheme, the string [String] returns. *)
Theorem canonical_string_injective (i1 i2 : AddressInfo) :
  (Raw i1 = Raw i2 -> Host i1 = Host i2 /\ Port i1 = Port i2) /\
  (Protocol i1 = Protocol i2 -> String_ i1 = String_ i2 -> i1 = i2).
Proof.
  assert (Hraw : Raw i1 = Raw i2 -> Host i1 = Host i2 /\ Port i1 = Port i2).
  { unfold Raw.
    intros [Hh Hp]%JoinHostPort_inj; [|apply hasByte_Itoa_colon..].
    split; [done|]. by apply (inj pretty) in Hp. }
  split; [done|].
  intros Hproto. unfold String_. rewrite <- Hproto.
  fold (Raw i1). fold (Raw i2). intros Hs.
  assert (Raw i1 = Raw i2) as [Hh Hp]%Hraw.
  { case_decide; [|done]. by apply (inj _), (inj _) in Hs. }
  destruct i1, i2. cbn in *. by subst.
Qed.

Lemma canonical_string_injective_witness :
  {| Protocol := "tcp"; Host := "::1"; Port := 3000 |}
  = {| Protocol := "tcp"; Host := "::1"; Port := 3000 |}.
Proof.
  apply (proj2 (canonical_string_injective
                  {| Protocol := "tcp"; Host := "::1"; Port := 3000 |}
                  {| Protocol := "tcp"; Host := "::1"; Port := 3000 |}));
    reflexivity.
Defined.

End AddressProperties.

(* ===================================================================== *)
(** * Further properties of the peer client *)
(* ===================================================================== *)

Module ClientProperties.
Import Network NetworkFacts.

Section WithEnv.
Context `{Env}.

(* --------------------------------------------------------------------- *)
(** ** Reconnection *)

(** The loop ends well at the first dial that connects. *)
Lemma retry_connects k : forall n c w id s,
  (k < n)%nat ->
  Id c = Some id ->
  Session c = None ->
  (forall i, (i < k)%nat ->
             unreachable (transport (dials w + i) (IDAddress id))) ->
  transport (dials w + k) (IDAddress id) = Connected s ->
  exists c' w',
    retry n c w = (Ok tt, c', w') /\
    Id c' = Some id /\
    Session c' = Some s /\
    Backoff c' = (Backoff c + k)%nat /\
    network w' = network w /\
    dials w' = S (dials w + k) /\
    events w' = events w ++ attemptEvents (IDAddress id) (Backoff c) k
                         ++ [EvDial (IDAddress id)].
Proof.
  induction k as [|k IH]; intros n c w id s Hn Hid Hs Hfail Hconn;
    (destruct n as [|n]; [lia|]); simpl; rewrite Hid;
    unfold establishConnection; rewrite Hs.
  - rewrite Nat.add_0_r in Hconn. rewrite Hconn.
    eexists _, _. split; [done|]. cbn. rewrite Nat.add_0_r.
    repeat split; done.
  - pose proof (Hfail 0%nat ltac:(lia)) as H0. rewrite Nat.add_0_r in H0.
    set (w1 := {| network := network w; cache := cache w;
                  events := events w ++ [EvDial (IDAddress id)];
                  dials := S (dials w) |}).
    assert (exists e c1,
      match transport (dials w) (IDAddress id) with
      | DialFails err => (Some err, c, w1)
      | MuxFails err => (Some err, setSession None c, w1)
      | Connected s => (None, setSession (Some s) c, w1)
      end = (Some e, c1, w1) /\ Id c1 = Some id /\ Session c1 = None /\
      Backoff c1 = Backoff c) as (e & c1 & -> & Hid1 & Hs1 & Hb1).
    { destruct (transport (dials w) (IDAddress id)); [eauto 10..|done]. }
    destruct (IH n (setBackoff (S (Backoff c1)) c1)
                 (emit (EvSleep (ForAttempt (Backoff c1))) w1) id s)
      as (c' & w' & -> & ? & ? & Hb & Hn' & Hd & He); [lia|done..| | |].
    { intros i Hi. cbn. replace (S (dials w + i)) with (dials w + S i)%nat
        by lia. apply Hfail. lia. }
    { cbn. by replace (S (dials w + k)) with (dials w + S k)%nat by lia. }
    exists c', w'. split; [done|]. split; [done|]. split; [done|].
    cbn in Hb, Hn', Hd, He. rewrite Hb1 in Hb, He.
    split; [lia|]. split; [done|]. split; [lia|].
    rewrite He. cbn. by rewrite <- !app_assoc.
Qed.

(** X8: when the first [k < 5] dials fail and the next one connects,
    [reestablishConnection] returns nil with the new session installed,
    after [k + 1] dials and [k] sleeps of the backoff durations 0 to
    [k - 1]; the routing table and the peers map are not touched. *)
Theorem reconnect_succeeds (c : PeerClient) (w : World) (id : ID)
    (k : nat) (s : MuxSession) :
  Id c = Some id ->
  (forall s0, Session c = Some s0 -> IsClosed s0 = false ->
              CloseErr s0 = None) ->
  (k < 5)%nat ->
  (forall i, (i < k)%nat ->
             unreachable (transport (dials w + i) (IDAddress id))) ->
  transport (dials w + k) (IDAddress id) = Connected s ->
  exists c' w',
    reestablishConnection c w = (Ok tt, c', w') /\
    Id c' = Some id /\
    Session c' = Some s /\
    network w' = network w /\
    dials w' = S (dials w + k) /\
    events w' =
      events w ++
      match Session c with
      | Some s0 => if IsClosed s0 then [] else [EvSessionClose (sid s0)]
      | None => []
      end ++ attemptEvents (IDAddress id) 0 k ++ [EvDial (IDAddress id)].
Proof.
  intros Hid Hclose Hk Hfail Hconn. unfold reestablishConnection, maxAttempts.
  destruct (Session c) as [s0|] eqn:Hs;
    [destruct (IsClosed s0) eqn:Hcl; cbn [negb]|].
  - destruct (retry_connects k 5 (setSession None (setBackoff 0%nat c)) w id s)
      as (c' & w' & -> & ? & ? & ? & ? & ? & ?); [done..|]. eauto 10.
  - rewrite (Hclose s0) by done.
    destruct (retry_connects k 5 (setSession None (setBackoff 0%nat c))
                (emit (EvSessionClose (sid s0)) w) id s)
      as (c' & w' & -> & ? & ? & ? & ? & ? & He); [done..|].
    cbn in He. rewrite <- app_assoc in He. eauto 10.
  - destruct (retry_connects k 5 (setSession None (setBackoff 0%nat c)) w id s)
      as (c' & w' & -> & ? & ? & ? & ? & ? & ?); [done..|]. eauto 10.
Qed.

Lemma retry_outcomes n : forall c w id r c' w',
  Id c = Some id ->
  Session c = None ->
  retry n c w = (r, c', w') ->
  Id c' = Some id /\
  Peers (network w') = Peers (network w) /\
  match r with
  | Ok _ => is_Some (Session c') /\ Routes (network w') = Routes (network w)
  | Err e => e = "unable to reestablish connection" /\ Session c' = None /\
             dials w' = (dials w + n)%nat
  | Panic _ => False
  end.
Proof.
  induction n as [|n IH]; intros c w id r c' w' Hid Hs; simpl.
  - intros [= <- <- <-]. destruct (close_frame c w) as (Hd & _ & Hp).
    rewrite Hd, Nat.add_0_r. done.
  - rewrite Hid. unfold establishConnection. rewrite Hs.
    destruct (transport (dials w) (IDAddress id)) as [e|e|s].
    + intros Hr. apply (IH _ _ id) in Hr; [|done..].
      destruct Hr as (? & Hp & Hr). split; [done|]. split; [done|].
      destruct r as [[]|e0|k]; [done| |done].
      destruct Hr as (? & ? & Hd). cbn in Hd. repeat split; [done..|lia].
    + intros Hr. apply (IH _ _ id) in Hr; [|done..].
      destruct Hr as (? & Hp & Hr). split; [done|]. split; [done|].
      destruct r as [[]|e0|k]; [done| |done].
      destruct Hr as (? & ? & Hd). cbn in Hd. repeat split; [done..|lia].
    + intros [= <- <- <-]. cbn. eauto.
Qed.

(** X9: on a client bound to an identity [reestablishConnection] never
    panics and never changes the identity or the peers map. It returns
    nil only with a session installed and the routing table untouched;
    it returns an error either because closing the old session failed
    (the client is then as before and nothing was dialled) or after 5
    dials, with no session left. *)
Theorem reconnect_outcomes (c : PeerClient) (w : World) (id : ID) r c' w' :
  Id c = Some id ->
  reestablishConnection c w = (r, c', w') ->
  Id c' = Some id /\
  Peers (network w') = Peers (network w) /\
  match r with
  | Ok _ => is_Some (Session c') /\ Routes (network w') = Routes (network w)
  | Err e =>
      (c' = c /\ dials w' = dials w /\
       exists s, Session c = Some s /\ IsClosed s = false /\
                 CloseErr s = Some e) \/
      (e = "unable to reestablish connection" /\ Session c' = None /\
       dials w' = (dials w + 5)%nat)
  | Panic _ => False
  end.
Proof.
  intros Hid. unfold reestablishConnection, maxAttempts.
  assert (forall w0, Peers (network w0) = Peers (network w) ->
                     Routes (network w0) = Routes (network w) ->
                     dials w0 = dials w ->
    retry 5 (setSession None (setBackoff 0%nat c)) w0 = (r, c', w') ->
    Id c' = Some id /\ Peers (network w') = Peers (network w) /\
    match r with
    | Ok _ => is_Some (Session c') /\ Routes (network w') = Routes (network w)
    | Err e =>
        (c' = c /\ dials w' = dials w /\
         exists s, Session c = Some s /\ IsClosed s = false /\
                   CloseErr s = Some e) \/
        (e = "unable to reestablish connection" /\ Session c' = None /\
         dials w' = (dials w + 5)%nat)
    | Panic _ => False
    end) as Hretry.
  { intros w0 Hp Hr Hd Hret. apply (retry_outcomes _ _ _ id) in Hret; [|done..].
    destruct Hret as (? & Hp' & Hres). rewrite Hp in Hp'.
    split; [done|]. split; [done|].
    destruct r as [[]|e|k]; [|right|done].
    - by rewrite <- Hr.
    - by rewrite <- Hd. }
  destruct (Session c) as [s|] eqn:Hs;
    [destruct (IsClosed s) eqn:Hcl; cbn [negb]|].
  - by apply Hretry.
  - destruct (CloseErr s) as [e|] eqn:He.
    + intros [= <- <- <-]. split; [done|]. split; [done|]. left. eauto 10.
    + by apply Hretry.
  - by apply Hretry.
Qed.

(** X10: on a client that is not bound to an identity
    [reestablishConnection] panics on [c.Id.Address] before any dial, once
    the old session, if open, has been closed. *)
Theorem reconnect_unbound_panics (c : PeerClient) (w : World) :
  Id c = None ->
  (forall s, Session c = Some s -> IsClosed s = false -> CloseErr s = None) ->
  exists c' w',
    reestablishConnection c w = (Panic NilDereference, c', w') /\
    dials w' = dials w /\
    network w' = network w.
Proof.
  intros Hid Hclose. unfold reestablishConnection, maxAttempts.
  destruct (Session c) as [s|] eqn:Hs;
    [destruct (IsClosed s) eqn:Hcl; cbn [negb]|].
  - simpl. rewrite Hid. eauto.
  - rewrite (Hclose s) by done. simpl. rewrite Hid. eauto.
  - simpl. rewrite Hid. eauto.
Qed.

(* --------------------------------------------------------------------- *)
(** ** Inbound envelopes *)

Lemma establishConnection_log address c w err c' w' :
  establishConnection address c w = (err, c', w') ->
  events w' = events w ++ match Session c with
                          | None => [EvDial address]
                          | Some _ => []
                          end /\
  (err = None -> Session c = None).
Proof.
  unfold establishConnection. destruct (Session c).
  - intros [= <- <- <-]. by rewrite app_nil_r.
  - destruct (transport _ _); by intros [= <- <- <-].
Qed.

Lemma dispatch_log stream msg id w :
  events (dispatch stream msg id w)
  = events w ++
    match UnmarshalAny (Message_ msg) with
    | Done m =>
        match Processors (network w) !! TypeName m with
        | Some p => [EvHandle p (stid stream) m]
        | None => []
        end
    | Fail _ => []
    end.
Proof.
  unfold dispatch. destruct (UnmarshalAny (Message_ msg)) as [m|e]; cbn.
  - destruct (Processors (network w) !! TypeName m); cbn;
      by rewrite ?app_nil_r.
  - by rewrite app_nil_r.
Qed.

(** X11: [handleMessage] closes the stream it is given exactly once, as
    the last thing it does, on every path, the panic on an envelope
    without sender included. *)
Theorem handleMessage_closes_stream (stream : Stream) (c : PeerClient)
    (w : World) :
  exists evs,
    events (handleMessage stream c w).2
    = events w ++ evs ++ [EvStreamClose (stid stream)] /\
    forall st, EvStreamClose st ∉ evs.
Proof.
  assert (Hd : forall msg id w0 pre,
    events w0 = events w ++ pre ->
    (forall st, EvStreamClose st ∉ pre) ->
    exists evs,
      events (dispatch stream msg id w0) ++ [EvStreamClose (stid stream)]
      = events w ++ evs ++ [EvStreamClose (stid stream)] /\
      forall st, EvStreamClose st ∉ evs).
  { intros msg id w0 pre Hpre Hno. rewrite dispatch_log, Hpre.
    set (handled := match UnmarshalAny (Message_ msg) with
                    | Done m =>
                        match Processors (network w0) !! TypeName m with
                        | Some p => [EvHandle p (stid stream) m]
                        | None => []
                        end
                    | Fail _ => []
                    end).
    exists (pre ++ handled). rewrite <- !app_assoc. split; [done|].
    intros st [Hin|Hin]%elem_of_app; [by apply Hno in Hin|].
    subst handled.
    destruct (UnmarshalAny (Message_ msg)) as [m|];
      [|by apply elem_of_nil in Hin].
    destruct (Processors (network w0) !! TypeName m);
      [|by apply elem_of_nil in Hin].
    by apply list_elem_of_singleton in Hin. }
  assert (Hnil : forall st, EvStreamClose st ∉ @nil Event)
    by (intros st; apply not_elem_of_nil).
  unfold handleMessage.
  destruct (received stream) as [msg|e];
    [|exists []; cbn; by split].
  destruct (Sender msg) as [id|]; [|exists []; cbn; by split].
  destruct (Id c) as [cid|].
  - destruct (negb (Equals cid id));
      [exists []; cbn; by split|].
    cbn. apply (Hd msg id w []); [by rewrite app_nil_r|done].
  - destruct (establishConnection (IDAddress id) (setId (Some id) c) w)
      as [[err c1] w1] eqn:E.
    apply establishConnection_log in E as [Hev _].
    assert (forall st,
      EvStreamClose st ∉ match Session (setId (Some id) c) with
                         | None => [EvDial (IDAddress id)]
                         | Some _ => []
                         end) as Hno.
    { intros st. destruct (Session _); [done|].
      by intros [=]%list_elem_of_singleton. }
    destruct err as [e|]; cbn.
    + rewrite Hev. eexists. split; [by rewrite <- app_assoc|done].
    + by apply (Hd msg id w1 _ Hev).
Qed.


Lemma handleMessage_routes_bound stream c w x r c' w' :
  Id c = Some x ->
  handleMessage stream c w = (r, c', w') ->
  Routes (network w') = Routes (network w) \/
  exists y, Equals x y = true /\
            Routes (network w') = Routes (network w) ++ [RUpdate y].
Proof.
  intros Hx. unfold handleMessage.
  destruct (received stream) as [msg|]; [|intros [= <- <- <-]; by left].
  destruct (Sender msg) as [id|]; [|intros [= <- <- <-]; by left].
  rewrite Hx. destruct (Equals x id) eqn:He; cbn [negb].
  - intros [= <- <- <-]. right. exists id. split; [done|].
    cbn [emit network]. by destruct (dispatch_spec stream msg id w) as [-> _].
  - intros [= <- <- <-]. by left.
Qed.

(** X13: while a client is bound to [x], every call the handling of its
    streams makes on the routing table is an [Update] with an identity
    equal to [x]; nothing is ever removed and no other identity added. *)
Theorem routes_only_bound_identity (streams : list Stream)
    (c : PeerClient) (w : World) (x : ID) r c' w' :
  Id c = Some x ->
  ingestAll streams c w = (r, c', w') ->
  exists calls,
    Routes (network w') = Routes (network w) ++ calls /\
    Forall (fun call => exists y, call = RUpdate y /\ Equals x y = true) calls.
Proof.
  revert c w. induction streams as [|s streams IH]; intros c w Hx; simpl.
  - intros [= <- <- <-]. exists []. by rewrite app_nil_r.
  - destruct (handleMessage s c w) as [[r1 c1] w1] eqn:E.
    pose proof (handleMessage_keeps_Id _ _ _ _ _ _ _ Hx E) as Hx1.
    pose proof (handleMessage_routes_bound _ _ _ _ _ _ _ Hx E) as Hro.
    assert (exists calls1,
      Routes (network w1) = Routes (network w) ++ calls1 /\
      Forall (fun call => exists y, call = RUpdate y /\ Equals x y = true)
             calls1) as (calls1 & Hc1 & Hall1).
    { destruct Hro as [->|(y & Hy & ->)].
      - exists []. by rewrite app_nil_r.
      - exists [RUpdate y]. split; [done|]. repeat constructor. eauto. }
    destruct r1 as [[]|e|k].
    + intros (calls & Hc & Hall)%IH; [|done].
      exists (calls1 ++ calls). rewrite Hc, Hc1, <- app_assoc.
      split; [done|]. by apply Forall_app.
    + intros [= <- <- <-]. eauto.
    + intros [= <- <- <-]. eauto.
Qed.

(* --------------------------------------------------------------------- *)
(** ** Outbound envelopes *)

(** X14: [Tell] returns nil exactly when the client has a session, a
    stream could be opened on it and the write went through. It hands one
    envelope to the transport when the stream could be opened and none
    otherwise, and changes nothing of the node. *)
Theorem Tell_spec (message : ProtoMessage) (c : PeerClient) (w : World) :
  ((Tell message c w).1 = None <->
   exists s, Session c = Some s /\ OpenStreamErr s = None /\
             SendErr s = None) /\
  network (Tell message c w).2 = network w /\
  events (Tell message c w).2
  = events w ++ match Session c with
                | Some s => if canOpenStream c
                            then [EvSend (sid s) message] else []
                | None => []
                end.
Proof.
  unfold Tell, canOpenStream.
  destruct (Session c) as [s|]; cbn.
  - destruct (OpenStreamErr s) as [e|] eqn:Eo; cbn.
    + rewrite app_nil_r. repeat split; [done| |done..].
      intros (s' & [= <-] & ? & ?). congruence.
    + destruct (SendErr s) as [e|] eqn:Es; cbn.
      * repeat split; [done| |done..].
        intros (s' & [= <-] & ? & ?). congruence.
      * repeat split; eauto.
  - rewrite app_nil_r. repeat split; [done| |done..].
    by intros (s' & [=] & ?).
Qed.

(** X15: [Request] returns a message exactly when the stream could be
    opened, the request written, a reply read and its body decoded, and
    the message is that decoded body. Of the reply only the body is
    looked at, not the sender nor the signature; the routing table and
    the peers map are not touched and no handler is invoked. *)
Theorem Request_spec (req : RpcRequest) (reply : result Message)
    (c : PeerClient) (w : World) :
  (forall m,
      (Request req reply c w).1 = Done m <->
      exists s res, Session c = Some s /\ OpenStreamErr s = None /\
                    SendErr s = None /\ reply = Done res /\
                    UnmarshalAny (Message_ res) = Done m) /\
  (forall res res',
      reply = Done res -> Message_ res' = Message_ res ->
      Request req (Done res') c w = Request req reply c w) /\
  network (Request req reply c w).2 = network w /\
  (forall p st m, EvHandle p st m ∈ events (Request req reply c w).2 ->
                  EvHandle p st m ∈ events w).
Proof.
  assert (forall p st m s,
    EvHandle p st m ∈ events w ++ [EvSend (sid s) (ReqMessage req)] ->
    EvHandle p st m ∈ events w) as Hno.
  { intros p st m s [?|[=]%list_elem_of_singleton]%elem_of_app. done. }
  unfold Request.
  destruct (Session c) as [s|] eqn:Hs;
    [destruct (OpenStreamErr s) as [eo|] eqn:Eo;
     [|destruct (SendErr s) as [es|] eqn:Es;
       [|destruct reply as [res|er];
         [destruct (UnmarshalAny (Message_ res)) as [m'|eu] eqn:Eu|]]]|];
    cbn [fst snd emit network events];
    (split; [|split; [|split]]); try done;
    try (intros p st m Hin; by apply (Hno p st m s)).
  all: try (intros m; split; [done|];
            intros (s' & res' & Hs' & Ho & Hse & Hr & Hu);
            simplify_eq; congruence).
  - intros m. split.
    + intros [= <-]. eauto 10.
    + intros (s' & res' & Hs' & Ho & Hse & Hr & Hu). simplify_eq. congruence.
  - intros res0 res' [= <-] ->. by rewrite Eu.
  - intros res0 res' [= <-] ->. by rewrite Eu.
Qed.

(** X16: [prepareMessage] rejects the nil message; an envelope it returns
    carries the node's own identity as sender, the marshalled message as
    body, and the signature [Sign] gives for the [Value] bytes of that
    body. It returns one exactly when marshalling and signing succeed. *)
Theorem prepareMessage_spec (MarshalAny : ProtoMessage -> result Any)
    (Sign : list Z -> result (list Z)) (message : option ProtoMessage)
    (n : Network) :
  (message = None ->
   prepareMessage MarshalAny Sign message n = Fail "message is null") /\
  (forall envelope,
      prepareMessage MarshalAny Sign message n = Done envelope <->
      exists m raw signature,
        message = Some m /\ MarshalAny m = Done raw /\
        Sign (Value raw) = Done signature /\
        envelope = {| Message_ := Some raw; Sender := Some (NetID n);
                      Signature := signature |}).
Proof.
  split; [by intros ->|]. intros envelope. unfold prepareMessage.
  destruct message as [m|]; [|split; [done|by intros (? & ? & ? & [=] & ?)]].
  destruct (MarshalAny m) as [raw|e] eqn:Em.
  - destruct (Sign (Value raw)) as [sg|e] eqn:Es.
    + split.
      * intros [= <-]. eauto 10.
      * intros (? & ? & ? & [= <-] & Hm & Hs & ->).
        rewrite Em in Hm. injection Hm as <-. rewrite Es in Hs.
        by injection Hs as <-.
    + split; [done|].
      intros (? & ? & ? & [= <-] & Hm & Hs & _).
      rewrite Em in Hm. injection Hm as <-. congruence.
  - split; [done|]. intros (? & ? & ? & [= <-] & Hm & _). congruence.
Qed.

End WithEnv.

#[local] Existing Instance Fixture.env.

Lemma reconnect_succeeds_witness :
  exists c' w',
    reestablishConnection (H := Fixture.flakyEnv) Fixture.clientX
      Fixture.flakyWorld = (Ok tt, c', w') /\
    Id c' = Some Fixture.peerX /\
    Session c' = Some (Fixture.openSession 2) /\
    network w' = network Fixture.flakyWorld /\
    dials w' = 3%nat /\
    events w' =
      [EvSessionClose 7] ++
      attemptEvents (H := Fixture.flakyEnv) "tcp://10.0.0.1:3001" 0 2 ++
      [EvDial "tcp://10.0.0.1:3001"].
Proof.
  apply (reconnect_succeeds (H := Fixture.flakyEnv) Fixture.clientX
           Fixture.flakyWorld Fixture.peerX 2 (Fixture.openSession 2)).
  - reflexivity.
  - intros s0 [= <-] _. reflexivity.
  - lia.
  - intros i Hi. destruct i as [|[|i]]; [exact I|exact I|lia].
  - reflexivity.
Defined.

Lemma reconnect_outcomes_witness :
  let res := reestablishConnection Fixture.clientX Fixture.worldX in
  Id res.1.2 = Some Fixture.peerX /\
  Peers (network res.2) = Peers (network Fixture.worldX) /\
  match res.1.1 with
  | Ok _ => is_Some (Session res.1.2) /\
            Routes (network res.2) = Routes (network Fixture.worldX)
  | Err e =>
      (res.1.2 = Fixture.clientX /\ dials res.2 = dials Fixture.worldX /\
       exists s, Session Fixture.clientX = Some s /\ IsClosed s = false /\
                 CloseErr s = Some e) \/
      (e = "unable to reestablish connection" /\ Session res.1.2 = None /\
       dials res.2 = (dials Fixture.worldX + 5)%nat)
  | Panic _ => False
  end.
Proof.
  intros res.
  apply (reconnect_outcomes Fixture.clientX Fixture.worldX Fixture.peerX).
  - reflexivity.
  - subst res.
    match goal with |- ?x = _ => generalize x end.
    intros [[? ?] ?]. reflexivity.
Defined.

Lemma reconnect_unbound_panics_witness :
  exists c' w',
    reestablishConnection createPeerClient Fixture.world
    = (Panic NilDereference, c', w') /\
    dials w' = dials Fixture.world /\
    network w' = network Fixture.world.
Proof.
  apply (reconnect_unbound_panics createPeerClient Fixture.world).
  - reflexivity.
  - intros s [=].
Defined.


Lemma routes_only_bound_identity_witness :
  let res := ingestAll [Fixture.streamFromX; Fixture.streamFromY;
                        Fixture.garbledFromX]
                       Fixture.clientX Fixture.worldX in
  exists calls,
    Routes (network res.2) = Routes (network Fixture.worldX) ++ calls /\
    Forall (fun call => exists y, call = RUpdate y /\
                                  Equals Fixture.peerX y = true) calls.
Proof.
  intros res.
  apply (routes_only_bound_identity
           [Fixture.streamFromX; Fixture.streamFromY; Fixture.garbledFromX]
           Fixture.clientX Fixture.worldX Fixture.peerX res.1.1 res.1.2).
  - reflexivity.
  - subst res.
    match goal with |- ?x = _ => generalize x end.
    intros [[? ?] ?]. reflexivity.
Defined.

End ClientProperties.

(* ===================================================================== *)
(** * Further properties of the node *)
(* ===================================================================== *)

Module NodeProperties.
Import Network NetworkFacts AddressProperties.

Lemma digit_not_slash d : pretty_N_char d ≠ "/"%char.
Proof. unfold pretty_N_char. by repeat case_match. Qed.

(** A printed integer has no slash in it. *)
Lemma hasByte_Itoa_slash z : Addr.hasByte "/" (Addr.Itoa z) = false.
Proof.
  unfold Addr.Itoa, pretty, pretty_Z.
  destruct z as [|x|x]; [done| |];
    unfold pretty, pretty_positive, pretty, pretty_N;
    rewrite decide_False by done.
  - by rewrite hasByte_pretty_N_go by apply digit_not_slash.
  - rewrite hasByte_append, hasByte_pretty_N_go by apply digit_not_slash.
    done.
Qed.

Lemma length_0_empty s : String.length s = 0%nat -> s = EmptyString.
Proof. by destruct s. Qed.

Section WithEnv.
Context `{Env}.

Lemma Address_no_slash (n : Network) :
  Addr.hasByte "/" (Host n) = false ->
  Addr.hasByte "/" (Address n) = false.
Proof.
  intros Hh. unfold Address.
  by rewrite !hasByte_append, Hh, hasByte_Itoa_slash.
Qed.

Lemma String_scheme_slash (info : Addr.AddressInfo) :
  Addr.Protocol info <> EmptyString ->
  Addr.hasByte "/" (Addr.String_ info) = true.
Proof.
  intros Hp. unfold Addr.String_. rewrite decide_True.
  - rewrite !hasByte_append. cbn. by rewrite orb_true_r.
  - destruct (Addr.Protocol info); [done|cbn; lia].
Qed.

Lemma ToUnifiedAddress_trimmed address c :
  (forall s, TrimSpace (TrimSpace s) = TrimSpace s) ->
  Resolver.ToUnifiedAddress (TrimSpace address) c
  = Resolver.ToUnifiedAddress address c.
Proof. intros Hidem. unfold Resolver.ToUnifiedAddress. by rewrite Hidem. Qed.

(** What [Dial] does once the address has a canonical form. *)
Lemma Dial_canonical (w : World) (address canon : string) (c' : Cache) :
  (forall s, TrimSpace (TrimSpace s) = TrimSpace s) ->
  Resolver.ToUnifiedAddress address (cache w) = (Ok canon, c') ->
  Dial address w
  = if decide (canon = Address (network w))
    then (Err "peer should not dial itself", setCache c' w)
    else match Peers (network w) !! canon with
         | Some client => (Ok client, setCache c' w)
         | None =>
             match clientDial canon createPeerClient (setCache c' w) with
             | (Some err, _, w') => (Err err, w')
             | (None, client, w') => (Ok client, w')
             end
         end.
Proof.
  intros Hidem Hcanon. unfold Dial.
  rewrite ToUnifiedAddress_trimmed, Hcanon by done.
  case_decide as Hlen; [|done].
  unfold Resolver.ToUnifiedAddress in Hcanon.
  by rewrite decide_True in Hcanon.
Qed.

(** X18: an address given with a scheme is never taken for the node's
    own, whatever it resolves to: its canonical form has a slash in it
    and [n.Address()], host and port joined by a colon, has none (the
    host of the node having none). [Dial] then goes on to the cached
    client, or to [client.Dial] on a fresh one. *)
Theorem scheme_qualified_never_self (w : World) (address canon : string)
    (c' : Cache) (info : Addr.AddressInfo) :
  (forall s, TrimSpace (TrimSpace s) = TrimSpace s) ->
  Addr.hasByte "/" (Host (network w)) = false ->
  Addr.ParseAddress (TrimSpace address) = Done info ->
  Addr.Protocol info <> EmptyString ->
  Resolver.ToUnifiedAddress address (cache w) = (Ok canon, c') ->
  canon <> Address (network w) /\
  Dial address w
  = match Peers (network w) !! canon with
    | Some client => (Ok client, setCache c' w)
    | None =>
        match clientDial canon createPeerClient (setCache c' w) with
        | (Some err, _, w') => (Err err, w')
        | (None, client, w') => (Ok client, w')
        end
    end.
Proof.
  intros Hidem Hhost Hparse Hproto Hcanon.
  assert (canon <> Address (network w)) as Hne.
  { intros Heq.
    pose proof (Address_no_slash (network w) Hhost) as Hno.
    rewrite <- Heq in Hno. clear Heq.
    unfold Resolver.ToUnifiedAddress in Hcanon.
    case_decide; [done|]. rewrite Hparse in Hcanon.
    destruct (Resolver.ToUnifiedHost _ _) as [[host|e|k] c1]; [|done..].
    injection Hcanon as <- _.
    by rewrite String_scheme_slash in Hno. }
  split; [done|].
  rewrite (Dial_canonical w address canon c') by done.
  by rewrite decide_False.
Qed.

(** X19: a second [Dial] to a peer that is in the peers map returns the
    client stored there: nothing is dialled, no client is created, and
    only the DNS cache may have changed. *)
Theorem Dial_cached (w : World) (address canon : string) (c' : Cache)
    (client : PeerClient) :
  (forall s, TrimSpace (TrimSpace s) = TrimSpace s) ->
  Resolver.ToUnifiedAddress address (cache w) = (Ok canon, c') ->
  canon <> Address (network w) ->
  Peers (network w) !! canon = Some client ->
  exists w',
    Dial address w = (Ok client, w') /\
    cache w' = c' /\
    network w' = network w /\
    dials w' = dials w /\
    events w' = events w.
Proof.
  intros Hidem Hcanon Hne Hpeer. exists (setCache c' w).
  rewrite (Dial_canonical w address canon c') by done.
  by rewrite decide_False, Hpeer.
Qed.

(** X20: when the address has no canonical form (it is blank, does not
    parse, or its host does not resolve), [Dial] hands back the very
    error of [ToUnifiedAddress], or its panic, and has touched nothing
    but the DNS cache: no client, no dial, no call. *)
Theorem Dial_surfaces_address_error (w : World) (address : string)
    (r : outcome string) (c' : Cache) :
  (forall s, TrimSpace (TrimSpace s) = TrimSpace s) ->
  Resolver.ToUnifiedAddress address (cache w) = (r, c') ->
  match r with
  | Ok _ => True
  | Err e => Dial address w = (Err e, setCache c' w)
  | Panic k => Dial address w = (Panic k, setCache c' w)
  end.
Proof.
  intros Hidem Hr. unfold Dial.
  case_decide as Hlen.
  - unfold Resolver.ToUnifiedAddress in Hr.
    rewrite decide_True in Hr by done. injection Hr as <- <-.
    by destruct w.
  - rewrite ToUnifiedAddress_trimmed, Hr by done. by destruct r.
Qed.

(* --------------------------------------------------------------------- *)
(** ** Broadcasts *)

Lemma Tell_log message c w :
  network (Tell message c w).2 = network w /\
  cache (Tell message c w).2 = cache w /\
  dials (Tell message c w).2 = dials w /\
  events (Tell message c w).2 = events w ++ tellEvents message c.
Proof.
  unfold Tell, tellEvents, canOpenStream.
  destruct (Session c) as [s|]; cbn; [|by rewrite app_nil_r].
  destruct (OpenStreamErr s); cbn; [by rewrite app_nil_r|].
  by destruct (SendErr s).
Qed.



Lemma length_tellEvents message c :
  length (tellEvents message c) = if canOpenStream c then 1%nat else 0%nat.
Proof.
  unfold tellEvents, canOpenStream.
  destruct (Session c) as [s|]; [|done]. by destruct (OpenStreamErr s).
Qed.

Lemma Broadcast_entries message (entries : list (string * PeerClient)) :
  forall w,
    let w' := foldl (fun w (kv : string * PeerClient) =>
                       (Tell message kv.2 w).2) w entries in
    network w' = network w /\ cache w' = cache w /\ dials w' = dials w /\
    events w'
    = events w ++ flat_map (fun kv => tellEvents message kv.2) entries.
Proof.
  induction entries as [|kv rest IH]; intros w; cbn.
  - by rewrite app_nil_r.
  - destruct (IH (Tell message kv.2 w).2) as (Hn & Hc & Hd & He).
    destruct (Tell_log message kv.2 w) as (Hn1 & Hc1 & Hd1 & He1).
    rewrite Hn, Hc, Hd, He, Hn1, Hc1, Hd1, He1.
    by rewrite <- app_assoc.
Qed.

(** X21: [Broadcast] goes through the whole peers map, whatever [Tell]
    returns on the way: it sends the message once on every session on
    which a stream can be opened, in the order of the iteration, and
    does nothing else: the node is unchanged, nothing is dialled, no
    client is asked to reconnect. *)
Theorem Broadcast_spec (message : ProtoMessage) (w : World) :
  let entries := map_to_list (Peers (network w)) in
  network (Broadcast message w) = network w /\
  dials (Broadcast message w) = dials w /\
  events (Broadcast message w)
  = events w ++ flat_map (fun kv => tellEvents message kv.2) entries /\
  length (events (Broadcast message w))
  = (length (events w)
     + length (filter (fun kv => canOpenStream kv.2 = true) entries))%nat.
Proof.
  intros entries. unfold Broadcast. fold entries.
  destruct (Broadcast_entries message entries w) as (Hn & _ & Hd & He).
  split; [done|]. split; [done|]. split; [done|].
  rewrite He, length_app. f_equal. clear.
  induction entries as [|kv rest IH]; [done|].
  cbn [flat_map]. rewrite length_app, length_tellEvents, filter_cons.
  destruct (canOpenStream kv.2) eqn:E.
  - rewrite decide_True by done. cbn. by rewrite IH.
  - rewrite decide_False by done. cbn. by rewrite IH.
Qed.

(** X22: [BroadcastByIds] is [BroadcastByAddresses] on the addresses of
    the ids. *)
Theorem BroadcastByIds_as_addresses (message : ProtoMessage)
    (ids : list ID) (w : World) :
  BroadcastByIds message ids w
  = BroadcastByAddresses message (IDAddress <$> ids) w.
Proof.
  revert w. induction ids as [|id rest IH]; intros w; [done|].
  rewrite fmap_cons. cbn [BroadcastByIds BroadcastByAddresses].
  destruct (Peers (network w) !! IDAddress id) as [client|]; [|apply IH].
  destruct (Tell message client w) as [[e|] w1]; [|apply IH].
  destruct (Id client); [apply IH|done].
Qed.






(* --------------------------------------------------------------------- *)
(** ** The node's address and the resolver *)

(** X25: [n.Address()] joins host and port with a colon and does not
    bracket the host, which [AddressInfo.Raw] does for a host with a
    colon in it: the two agree exactly on the hosts without a colon. *)
Theorem Address_is_Raw (n : Network) (protocol : string) :
  Address n
  = Addr.Raw {| Addr.Protocol := protocol; Addr.Host := Host n;
                Addr.Port := Port n |}
  <-> Addr.hasByte ":" (Host n) = false.
Proof.
  unfold Address, Addr.Raw. cbn [Addr.Host Addr.Port].
  rewrite JoinHostPort_cut.
  change (":" +:+ Addr.Itoa (Port n)) with (String ":" (Addr.Itoa (Port n))).
  destruct (Addr.hasByte ":" (Host n)) eqn:E; split; try done.
  intros [Hh _]%last_split; [|apply hasByte_Itoa_colon..].
  apply (f_equal String.length) in Hh.
  rewrite !length_append in Hh. cbn in Hh. lia.
Qed.

(** X26: the loader [ToUnifiedHost] hands to the cache returns an IP
    literal as it is; a name resolves to the first address of
    [net.LookupHost], with the IPv6 loopback replaced by 127.0.0.1, so
    that a name never resolves to [::1]; no address at all is an
    error. *)
Theorem lookup_spec (host : string) :
  (ParseIP host = true -> Resolver.lookup host tt = Done host) /\
  (ParseIP host = false ->
   (forall r, Resolver.lookup host tt = Done r ->
      r <> "::1" /\
      exists first rest,
        LookupHost host = Done (first :: rest) /\
        r = if decide (first = "::1") then "127.0.0.1" else first) /\
   (LookupHost host = Done [] ->
      Resolver.lookup host tt = Fail "no available addresses") /\
   (forall err, LookupHost host = Fail err ->
      Resolver.lookup host tt = Fail err)).
Proof.
  unfold Resolver.lookup. split; [by intros ->|]. intros ->.
  split; [|split].
  - intros r. destruct (LookupHost host) as [[|first rest]|err]; [done| |done].
    case_decide as Hf.
    + intros [= <-]. split; [done|]. exists first, rest.
      by rewrite decide_True.
    + intros [= <-]. split; [done|]. exists first, rest.
      by rewrite decide_False.
  - by intros ->.
  - by intros err ->.
Qed.

End WithEnv.

#[local] Existing Instance Fixture.env.

Lemma scheme_qualified_never_self_witness :
  "tcp://127.0.0.1:3000" <> Address (network Fixture.world) /\
  Dial "tcp://127.0.0.1:3000" Fixture.world
  = match Peers (network Fixture.world) !! "tcp://127.0.0.1:3000" with
    | Some client =>
        (Ok client,
         setCache (Resolver.ToUnifiedAddress "tcp://127.0.0.1:3000"
                     (cache Fixture.world)).2 Fixture.world)
    | None =>
        match clientDial "tcp://127.0.0.1:3000" createPeerClient
                (setCache (Resolver.ToUnifiedAddress "tcp://127.0.0.1:3000"
                             (cache Fixture.world)).2 Fixture.world) with
        | (Some err, _, w') => (Err err, w')
        | (None, client, w') => (Ok client, w')
        end
    end.
Proof.
  apply (scheme_qualified_never_self Fixture.world "tcp://127.0.0.1:3000"
           "tcp://127.0.0.1:3000"
           (Resolver.ToUnifiedAddress "tcp://127.0.0.1:3000"
              (cache Fixture.world)).2
           {| Addr.Protocol := "tcp"; Addr.Host := "127.0.0.1";
              Addr.Port := 3000 |}).
  - apply trim_idemp.
  - reflexivity.
  - vm_compute. reflexivity.
  - intros [=].
  - assert ((Resolver.ToUnifiedAddress "tcp://127.0.0.1:3000"
               (cache Fixture.world)).1 = Ok "tcp://127.0.0.1:3000") as <-
      by (vm_compute; reflexivity).
    match goal with |- ?x = _ => generalize x end.
    intros [? ?]. reflexivity.
Defined.

Lemma Dial_cached_witness :
  exists w',
    Dial " tcp://10.0.0.1:3001" Fixture.worldX = (Ok Fixture.clientX, w') /\
    cache w' = (Resolver.ToUnifiedAddress " tcp://10.0.0.1:3001"
                  (cache Fixture.worldX)).2 /\
    network w' = network Fixture.worldX /\
    dials w' = dials Fixture.worldX /\
    events w' = events Fixture.worldX.
Proof.
  apply (Dial_cached Fixture.worldX " tcp://10.0.0.1:3001"
           "tcp://10.0.0.1:3001").
  - apply trim_idemp.
  - assert ((Resolver.ToUnifiedAddress " tcp://10.0.0.1:3001"
               (cache Fixture.worldX)).1 = Ok "tcp://10.0.0.1:3001") as <-
      by (vm_compute; reflexivity).
    match goal with |- ?x = _ => generalize x end.
    intros [? ?]. reflexivity.
  - vm_compute. intros [=].
  - vm_compute. reflexivity.
Defined.

Lemma Dial_surfaces_address_error_witness :
  Dial "   " Fixture.world
  = (Err "cannot dial, address was empty",
     setCache (cache Fixture.world) Fixture.world).
Proof.
  apply (Dial_surfaces_address_error Fixture.world "   "
           (Err "cannot dial, address was empty") (cache Fixture.world)).
  - apply trim_idemp.
  - vm_compute. reflexivity.
Defined.



End NodeProperties.
